(** * NoesisNoema maintenance scripts: project.pbxproj text patching

    A shallow embedding of the two scripts under [scripts/]:

    - [fix_build_settings.py]   ([Module FixBuildSettings]): [patch_block]
      and the [main] driver over the [CONFIGS] table;
    - [patch_xcframework_paths.py] ([Module PatchXcframeworkPaths]): the two
      [re.sub] calls, the line filter and the driver.

    Text is a Python [str], embedded as a list of characters.  Characters are
    the code points 0..255 ([ascii]); the Python character classes used by the
    scripts ([str.strip], [str.splitlines], the regex classes [\s], [\w] and
    [\b]) are given for exactly that range. *)

From Stdlib Require Import Ascii String List Bool Arith Lia.
Import ListNotations.

(** ** Python string primitives used by the scripts *)

Module Py.

Definition str := list ascii.

(** A string literal without escapes. *)
Definition lit (s : string) : str := list_ascii_of_string s.

Definition NL  : ascii := "010"%char.   (* \n *)
Definition TAB : ascii := "009"%char.   (* \t *)
Definition CR  : ascii := "013"%char.   (* \r *)

(** [s.startswith(p)] *)
Fixpoint startswith (s p : str) {struct p} : bool :=
  match p, s with
  | [], _ => true
  | _ :: _, [] => false
  | a :: p', b :: s' => Ascii.eqb a b && startswith s' p'
  end.

(** Leftmost occurrence of [sub] in the tail [s] of a text, where [s]
    begins at index [i] of that text. *)
Fixpoint find_tail (sub s : str) (i : nat) : option nat :=
  if startswith s sub then Some i
  else match s with
       | [] => None
       | _ :: s' => find_tail sub s' (S i)
       end.

(** [s.find(sub, start)] for [start >= 0]; [None] stands for [-1]. *)
Definition find (s sub : str) (start : nat) : option nat :=
  if start <=? length s then find_tail sub (skipn start s) start else None.

(** [sub in s] *)
Definition contains (sub s : str) : bool :=
  match find s sub 0 with
  | Some _ => true
  | None => false
  end.

(** [s[:n]], [s[n:]] and [s[a:b]] for non-negative indices. *)
Definition slice_to (s : str) (n : nat) : str := firstn n s.
Definition slice_from (s : str) (n : nat) : str := skipn n s.
Definition slice (s : str) (a b : nat) : str := firstn (b - a) (skipn a s).

(** [s == t] *)
Fixpoint str_eqb (s t : str) : bool :=
  match s, t with
  | [], [] => true
  | a :: s', b :: t' => Ascii.eqb a b && str_eqb s' t'
  | _, _ => false
  end.

(** [str.isspace] on one character, which is also the regex class [\s]:
    code points 9-13, 28-32, 0x85 and 0xA0. *)
Definition isspace (c : ascii) : bool :=
  let n := nat_of_ascii c in
  ((9 <=? n) && (n <=? 13)) || ((28 <=? n) && (n <=? 32))
  || (n =? 133) || (n =? 160).

(** The regex class [\w] of a [str] pattern: [str.isalnum] or underscore. *)
Definition isword (c : ascii) : bool :=
  let n := nat_of_ascii c in
  ((48 <=? n) && (n <=? 57)) || ((65 <=? n) && (n <=? 90)) || (n =? 95)
  || ((97 <=? n) && (n <=? 122))
  || (n =? 170) || (n =? 178) || (n =? 179) || (n =? 181) || (n =? 185)
  || (n =? 186) || ((188 <=? n) && (n <=? 190))
  || ((192 <=? n) && (n <=? 214)) || ((216 <=? n) && (n <=? 246))
  || (248 <=? n).

(** The characters at which [str.splitlines] ends a line:
    \n \v \f \r \x1c \x1d \x1e \x85. *)
Definition islinebreak (c : ascii) : bool :=
  let n := nat_of_ascii c in
  ((10 <=? n) && (n <=? 13)) || ((28 <=? n) && (n <=? 30)) || (n =? 133).

(** [s.lstrip()], [s.rstrip()], [s.strip()] *)
Fixpoint lstrip (s : str) : str :=
  match s with
  | c :: s' => if isspace c then lstrip s' else s
  | [] => []
  end.

Definition rstrip (s : str) : str := rev (lstrip (rev s)).

Definition strip (s : str) : str := rstrip (lstrip s).

(** [s.splitlines()]: [cur] is the line being read.  A line ends at a
    line-break character, \r\n counting as one; the text after the last
    line break is a line only when it is not empty. *)
Fixpoint splitlines_from (cur s : str) : list str :=
  match s with
  | [] => match cur with [] => [] | _ :: _ => [cur] end
  | c :: s' =>
      if islinebreak c then
        if Ascii.eqb c CR then
          match s' with
          | d :: s'' =>
              if Ascii.eqb d NL then cur :: splitlines_from [] s''
              else cur :: splitlines_from [] s'
          | [] => cur :: splitlines_from [] s'
          end
        else cur :: splitlines_from [] s'
      else splitlines_from (cur ++ [c]) s'
  end.

Definition splitlines (s : str) : list str := splitlines_from [] s.

(** [sep.join(parts)] *)
Fixpoint join (sep : str) (parts : list str) : str :=
  match parts with
  | [] => []
  | [p] => p
  | p :: rest => p ++ sep ++ join sep rest
  end.

(** First result of [f] over the candidates, in order. *)
Fixpoint first_some {A B : Type} (f : A -> option B) (l : list A) : option B :=
  match l with
  | [] => None
  | a :: l' => match f a with
               | Some b => Some b
               | None => first_some f l'
               end
  end.

End Py.

(** ** scripts/fix_build_settings.py *)

Module FixBuildSettings.
Import Py.

(** One value of the [CONFIGS] dictionary. *)
Record meta := Meta { name : str; swift : bool; infoplist : bool }.

(** [CONFIGS], in insertion order (the order [dict.items()] iterates in). *)
Definition CONFIGS : list (str * meta) :=
  [ (lit "F41FD0242E2A467000909132", Meta (lit "Project Debug") true false);
    (lit "F41FD0252E2A467000909132", Meta (lit "Project Release") true false);
    (lit "F41FD0272E2A467000909132", Meta (lit "NoesisNoema Debug") true true);
    (lit "F41FD0282E2A467000909132", Meta (lit "NoesisNoema Release") true true);
    (lit "F460884E2E2CD45000D4C555", Meta (lit "LlamaBridgeTest Debug") true false);
    (lit "F460884F2E2CD45000D4C555", Meta (lit "LlamaBridgeTest Release") true false);
    (lit "F4C581062E4F006800E64194", Meta (lit "NoesisNoemaMobile Debug") true true);
    (lit "F4C581072E4F006800E64194", Meta (lit "NoesisNoemaMobile Release") true true) ].

Definition SWIFT_VERSION_LINE : str :=
  [TAB; TAB; TAB; TAB] ++ lit "SWIFT_VERSION = 5.0;" ++ [NL].

Definition GENERATE_INFOPLIST_LINE : str :=
  [TAB; TAB; TAB; TAB] ++ lit "GENERATE_INFOPLIST_FILE = YES;" ++ [NL].

(** The literals of [patch_block]. *)
Definition BS_OPEN : str := lit "buildSettings = {".
Definition BS_CLOSE : str := [NL; TAB; TAB; TAB] ++ lit "};".
Definition SWIFT_KEY : str := lit "SWIFT_VERSION".
Definition INFOPLIST_KEY : str := lit "GENERATE_INFOPLIST_FILE".

(** [start_pat] is
    [\n\t\t{re.escape(config_id)} \/\* .+? \*\/ = \{] under [re.DOTALL]:
    a literal, a lazy run of one or more arbitrary characters, a literal.
    [re.escape] makes the identifier match itself. *)
Definition start_pat_head (config_id : str) : str :=
  [NL; TAB; TAB] ++ config_id ++ lit " /* ".
Definition start_pat_tail : str := lit " */ = {".

(** One attempt of [start_pat] at index [p]: the head must start there, and
    the lazy [.+?] stops at the first place, at least one character later,
    where the tail starts.  The result is the end of the match. *)
Definition start_pat_match_at (config_id text : str) (p : nat)
  : option (nat * nat) :=
  if startswith (slice_from text p) (start_pat_head config_id) then
    match find text start_pat_tail (p + length (start_pat_head config_id) + 1) with
    | Some q => Some (p, q + length start_pat_tail)
    | None => None
    end
  else None.

(** [start_pat.search(text)]: the attempt at the leftmost index that
    succeeds, as [(m.start(), m.end())]. *)
Definition start_pat_search (config_id text : str) : option (nat * nat) :=
  first_some (start_pat_match_at config_id text) (seq 0 (S (length text))).

Definition patch_block (text config_id : str) (set_swift set_infoplist : bool)
  : str :=
  match start_pat_search config_id text with
  | None => text
  | Some (block_start, m_end) =>
      match find text BS_OPEN m_end with
      | None => text
      | Some bs_start =>
          match find text BS_CLOSE bs_start with
          | None => text
          | Some bs_end =>
              let bs_content_start := bs_start + length BS_OPEN in
              let bs_content := slice text bs_content_start bs_end in
              let bs_content :=
                if set_swift && negb (contains SWIFT_KEY bs_content)
                then bs_content ++ [NL] ++ SWIFT_VERSION_LINE
                else bs_content in
              let bs_content :=
                if set_infoplist && negb (contains INFOPLIST_KEY bs_content)
                then bs_content ++ [NL] ++ GENERATE_INFOPLIST_LINE
                else bs_content in
              slice_to text bs_content_start ++ bs_content
                ++ slice_from text bs_end
          end
      end
  end.

(** The settings region [patch_block] works on: the indices
    [(bs_content_start, bs_end)] computed by its first three steps, or
    [None] when one of its three early returns is taken. *)
Definition settings_region (text config_id : str) : option (nat * nat) :=
  match start_pat_search config_id text with
  | None => None
  | Some (block_start, m_end) =>
      match find text BS_OPEN m_end with
      | None => None
      | Some bs_start =>
          match find text BS_CLOSE bs_start with
          | None => None
          | Some bs_end => Some (bs_start + length BS_OPEN, bs_end)
          end
      end
  end.

(** What [patch_block] appends to the content [c] of the region. *)
Definition swift_insert (set_swift : bool) (c : str) : str :=
  if set_swift && negb (contains SWIFT_KEY c)
  then [NL] ++ SWIFT_VERSION_LINE else [].

Definition infoplist_insert (set_infoplist : bool) (c : str) : str :=
  if set_infoplist && negb (contains INFOPLIST_KEY c)
  then [NL] ++ GENERATE_INFOPLIST_LINE else [].

Definition inserted (set_swift set_infoplist : bool) (c : str) : str :=
  swift_insert set_swift c
    ++ infoplist_insert set_infoplist (c ++ swift_insert set_swift c).

(** What [main] does to the outside world: the text handed to
    [write_text], if any, and the lines printed. *)
Record outcome := Outcome { written : option str; stdout : list str }.

(** The loop [for cid, meta in CONFIGS.items(): data = patch_block(...)]. *)
Definition patch_all (data : str) : str :=
  fold_left (fun d e => patch_block d (fst e) (swift (snd e)) (infoplist (snd e)))
            CONFIGS data.

(** [f" - {meta['name']} ({cid})"] *)
Definition report_line (e : str * meta) : str :=
  lit " - " ++ name (snd e) ++ lit " (" ++ fst e ++ lit ")".

(** [main], with the text read from the project file as its argument. *)
Definition main (file : str) : outcome :=
  let data := file in
  let orig := data in
  let data := patch_all data in
  if negb (str_eqb data orig) then
    Outcome (Some data) (lit "Patched:" :: map report_line CONFIGS)
  else
    Outcome None [lit "No changes applied (already up to date?)"].

(** The entries of [CONFIGS] whose call of [patch_block] changed the text
    it was given, [data] being the text before the first of [entries]. *)
Fixpoint modified_blocks (entries : list (str * meta)) (data : str)
  : list (str * meta) :=
  match entries with
  | [] => []
  | e :: rest =>
      let data' := patch_block data (fst e) (swift (snd e)) (infoplist (snd e)) in
      if str_eqb data' data then modified_blocks rest data'
      else e :: modified_blocks rest data'
  end.

(** Number of places at which [key] occurs in [s]. *)
Fixpoint occurrences (key s : str) : nat :=
  (if startswith s key then 1 else 0)
  + match s with
    | [] => 0
    | _ :: s' => occurrences key s'
    end.

(** The indices [patch_block] computes before it edits, as four calls of
    [find]: [bs_start] and [bs_end] are where it finds the marker and the
    terminator of the region. *)
Definition located (config_id text : str) (bs_start bs_end : nat) : Prop :=
  exists p q,
    find text (start_pat_head config_id) 0 = Some p
    /\ find text start_pat_tail (p + length (start_pat_head config_id) + 1) = Some q
    /\ find text BS_OPEN (q + length start_pat_tail) = Some bs_start
    /\ find text BS_CLOSE bs_start = Some bs_end.

(** An identifier without a newline in it and without a tab in front, as
    the identifiers of [CONFIGS] are. *)
Definition plain_id (config_id : str) : Prop :=
  ~ In NL config_id /\ hd_error config_id <> Some TAB.

(** One step of the loop of [main], for the entry [e] of the table. *)
Definition patch_entry (data : str) (e : str * meta) : str :=
  patch_block data (fst e) (swift (snd e)) (infoplist (snd e)).

End FixBuildSettings.

(** ** scripts/patch_xcframework_paths.py *)

Module PatchXcframeworkPaths.
Import Py.

Definition FRAMEWORKS : str := lit "Frameworks/".
Definition XCFRAMEWORKS : str := lit "xcframeworks/".
Definition LLAMA_MACOS : str := lit "llama_macos.xcframework".
Definition LLAMA_IOS : str := lit "llama_ios.xcframework".
Definition EQUALS : ascii := "="%char.

(** The regex assertion [\b] between two neighbouring characters, [None]
    standing for the start or the end of the text. *)
Definition word_at (c : option ascii) : bool :=
  match c with
  | Some c => isword c
  | None => false
  end.

Definition word_boundary (prev next : option ascii) : bool :=
  xorb (word_at prev) (word_at next).

(** The text after the literal [p] at the start of [s]. *)
Fixpoint strip_prefix (p s : str) : option str :=
  match p, s with
  | [], _ => Some s
  | _ :: _, [] => None
  | a :: p', b :: s' => if Ascii.eqb a b then strip_prefix p' s' else None
  end.

(** The greedy [\s*]: the longest run of white space and what follows. *)
Fixpoint span_space (s : str) : str * str :=
  match s with
  | c :: s' =>
      if isspace c then let (ws, r) := span_space s' in (c :: ws, r)
      else ([], s)
  | [] => ([], [])
  end.

(** One attempt of [(\bFrameworks/)fname(\s*=)] at the start of [s], the
    character before it being [prev].  The result is group 2 and the text
    after the match; group 1 is always [FRAMEWORKS].  Giving characters
    back from the greedy [\s*] cannot help, since [=] is not white space. *)
Definition path_match_at (fname : str) (prev : option ascii) (s : str)
  : option (str * str) :=
  if word_boundary prev (hd_error s) then
    match strip_prefix (FRAMEWORKS ++ fname) s with
    | Some r =>
        let (ws, r') := span_space r in
        match r' with
        | c :: rest =>
            if Ascii.eqb c EQUALS then Some (ws ++ [EQUALS], rest) else None
        | [] => None
        end
    | None => None
    end
  else None.

(** The scan of [re.sub]: at a match, the template
    [\1xcframeworks/fname\2] is written and the scan goes on after the
    match; elsewhere one character is copied.  Every step consumes a
    character, so [fuel] above the length of [s] is never used up. *)
Fixpoint sub_scan (fuel : nat) (fname : str) (prev : option ascii) (s : str)
  : str :=
  match fuel with
  | 0 => s
  | S fuel' =>
      match path_match_at fname prev s with
      | Some (g2, rest) =>
          FRAMEWORKS ++ XCFRAMEWORKS ++ fname ++ g2
            ++ sub_scan fuel' fname (Some EQUALS) rest
      | None =>
          match s with
          | [] => []
          | c :: s' => c :: sub_scan fuel' fname (Some c) s'
          end
      end
  end.

(** [re.sub(r"(\bFrameworks/)fname(\s*=)", r"\1xcframeworks/fname\2", text)] *)
Definition re_sub_path (fname text : str) : str :=
  sub_scan (S (length text)) fname None text.

(** The scan of [re.sub] taken up in the middle of a text, [prev] being the
    character before [s]. *)
Definition scan_from (fname : str) (prev : option ascii) (s : str) : str :=
  sub_scan (S (length s)) fname prev s.

(** The character before the text that follows [u], when [prev] is the
    character before [u]. *)
Definition prev_after (prev : option ascii) (u : str) : option ascii :=
  last (map Some u) prev.

(** Step 1, the two substitutions. *)
Definition substitute (text : str) : str :=
  re_sub_path LLAMA_IOS (re_sub_path LLAMA_MACOS text).

(** The set literal of the line filter. *)
Definition STALE : list str :=
  [ lit "Frameworks/llama_macos.xcframework,";
    lit "Frameworks/llama_ios.xcframework," ].

Definition is_stale (l : str) : bool := existsb (str_eqb l) STALE.

(** The loop over [lines], [keep] being the list built so far. *)
Fixpoint keep_loop (keep lines : list str) : list str :=
  match lines with
  | [] => keep
  | line :: rest =>
      let l := strip line in
      if is_stale l then keep_loop keep rest
      else keep_loop (keep ++ [line]) rest
  end.

(** Step 2, from [text.splitlines()] to ["\n".join(keep)]. *)
Definition kept_lines (text : str) : list str :=
  keep_loop [] (splitlines text).

Definition filter_lines (text : str) : str := join [NL] (kept_lines text).

(** The transformation of the script, from the text read to the text
    compared with [orig]. *)
Definition rewritePaths (text : str) : str := filter_lines (substitute text).

Record outcome := Outcome { written : option str; stdout : list str }.

Definition main (file : str) : outcome :=
  let orig := file in
  let text := rewritePaths file in
  if negb (str_eqb text orig) then
    Outcome (Some text)
      [lit "Patched project.pbxproj: removed old llama_* xcframework references and updated attributes to xcframeworks/* paths"]
  else
    Outcome None [lit "No changes made (already clean)"].

(** The assignment context is optional white space, then [=];
    [assigned_at fname s] says that the old path starts [s] and is followed
    by the assignment context. *)
Definition assignment_context (r : str) : Prop :=
  exists ws r', forallb isspace ws = true /\ r = ws ++ [EQUALS] ++ r'.

Definition assigned_at (fname s : str) : Prop :=
  exists r, s = FRAMEWORKS ++ fname ++ r /\ assignment_context r.

(** [scoped_rewrite fname s o]: [o] is [s] read from left to right, every
    character copied, except that at some occurrences of the old path
    followed by the assignment context [XCFRAMEWORKS] is put in after
    [FRAMEWORKS]; the context is copied with the path. *)
Inductive scoped_rewrite (fname : str) : str -> str -> Prop :=
| scoped_nil : scoped_rewrite fname [] []
| scoped_copy (c : ascii) (s o : str) :
    scoped_rewrite fname s o -> scoped_rewrite fname (c :: s) (c :: o)
| scoped_subst (ws s o : str) :
    forallb isspace ws = true ->
    scoped_rewrite fname s o ->
    scoped_rewrite fname
      (FRAMEWORKS ++ fname ++ ws ++ [EQUALS] ++ s)
      (FRAMEWORKS ++ XCFRAMEWORKS ++ fname ++ ws ++ [EQUALS] ++ o).

(** [l] has no character at which [splitlines] ends a line. *)
Definition no_linebreak (l : str) : Prop :=
  forall c, In c l -> islinebreak c = false.

(** [s] ends with a character at which [splitlines] ends a line. *)
Definition ends_with_linebreak (s : str) : bool :=
  match rev s with
  | c :: _ => islinebreak c
  | [] => false
  end.

End PatchXcframeworkPaths.

(** ** Sample project texts *)

Module Samples.
Import Py.

Definition line (tabs : nat) (s : string) : str :=
  repeat TAB tabs ++ lit s ++ [NL].

Definition ID_PROJECT_DEBUG : str := lit "F41FD0242E2A467000909132".
Definition ID_PROJECT_RELEASE : str := lit "F41FD0252E2A467000909132".

(** A configuration block with a settings region that lacks both keys.
    The newline that opens the block is the end of the line before it. *)
Definition debug_block : str :=
  line 0 "/* Begin XCBuildConfiguration section */"
  ++ line 2 "F41FD0242E2A467000909132 /* Debug */ = {"
  ++ line 3 "isa = XCBuildConfiguration;"
  ++ line 3 "buildSettings = {"
  ++ line 4 "SDKROOT = macosx;"
  ++ line 3 "};"
  ++ line 3 "name = Debug;"
  ++ line 2 "};".

(** The same block with [SWIFT_VERSION] already set. *)
Definition debug_block_swift : str :=
  line 0 "/* Begin XCBuildConfiguration section */"
  ++ line 2 "F41FD0242E2A467000909132 /* Debug */ = {"
  ++ line 3 "isa = XCBuildConfiguration;"
  ++ line 3 "buildSettings = {"
  ++ line 4 "SDKROOT = macosx;"
  ++ line 4 "SWIFT_VERSION = 5.0;"
  ++ line 3 "};"
  ++ line 3 "name = Debug;"
  ++ line 2 "};".

(** A block without a settings region of its own. *)
Definition bare_debug_block : str :=
  line 0 "/* Begin XCBuildConfiguration section */"
  ++ line 2 "F41FD0242E2A467000909132 /* Debug */ = {"
  ++ line 3 "isa = XCBuildConfiguration;"
  ++ line 3 "name = Debug;"
  ++ line 2 "};".

(** The block that follows it, before and after [SWIFT_VERSION] is added
    to its settings region. *)
Definition release_block : str :=
  line 2 "F41FD0252E2A467000909132 /* Release */ = {"
  ++ line 3 "isa = XCBuildConfiguration;"
  ++ line 3 "buildSettings = {"
  ++ line 4 "SDKROOT = macosx;"
  ++ line 3 "};"
  ++ line 3 "name = Release;"
  ++ line 2 "};".

Definition release_block_swift : str :=
  line 2 "F41FD0252E2A467000909132 /* Release */ = {"
  ++ line 3 "isa = XCBuildConfiguration;"
  ++ line 3 "buildSettings = {"
  ++ line 4 "SDKROOT = macosx;"
  ++ line 4 "SWIFT_VERSION = 5.0;"
  ++ [NL]
  ++ line 3 "};"
  ++ line 3 "name = Release;"
  ++ line 2 "};".

Definition two_blocks : str := bare_debug_block ++ release_block.

(** A project file in which nothing refers to the old paths. *)
Definition clean_file : str :=
  line 0 "// !$*UTF8*$!" ++ line 0 "{" ++ line 1 "archiveVersion = 1;"
  ++ line 0 "}".

Definition clean_file_stripped : str :=
  line 0 "// !$*UTF8*$!" ++ line 0 "{" ++ line 1 "archiveVersion = 1;"
  ++ lit "}".

(** The same file followed by an empty line. *)
Definition clean_file_blank : str := clean_file ++ [NL].

(** A stale entry between an old path and an equals sign. *)
Definition stale_between : str :=
  line 0 "Frameworks/llama_macos.xcframework"
  ++ line 0 "Frameworks/llama_ios.xcframework," ++ lit "=".

(** A membership list with a stale entry and an entry that only starts
    like one. *)
Definition exceptions_list : str :=
  line 3 "membershipExceptions = ("
  ++ line 4 "Frameworks/llama_ios.xcframework,"
  ++ line 4 "Frameworks/llama_ios.xcframework_extra,"
  ++ line 3 ");".

(** An old path in an assignment, and one in a list. *)
Definition attributes : str :=
  line 4 "Frameworks/llama_macos.xcframework = {"
  ++ line 4 "Frameworks/llama_macos.xcframework;".

End Samples.

(** ** Facts about the string primitives *)

Module PyFacts.
Import Py.

Lemma startswith_app (p r : str) : startswith (p ++ r) p = true.
Proof.
  induction p as [|a p IH]; simpl; [reflexivity|].
  now rewrite Ascii.eqb_refl.
Qed.

Lemma startswith_cons (c a : ascii) (s p : str) :
  startswith (c :: s) (a :: p) = Ascii.eqb a c && startswith s p.
Proof. reflexivity. Qed.

Lemma startswith_true (s p : str) :
  startswith s p = true -> exists r, s = p ++ r.
Proof.
  revert s; induction p as [|a p IH]; intros s H; simpl in *.
  - now exists s.
  - destruct s as [|b s]; [discriminate|].
    apply andb_prop in H as [Hab Hs].
    apply Ascii.eqb_eq in Hab; subst b.
    destruct (IH _ Hs) as [r ->]. now exists r.
Qed.

Lemma startswith_length (s p : str) :
  startswith s p = true -> length p <= length s.
Proof.
  intros H; destruct (startswith_true _ _ H) as [r ->].
  rewrite length_app; lia.
Qed.

(** The test at index [k] only looks at the window [k .. k + length p). *)
Lemma startswith_window (x y z p : str) (k : nat) :
  k + length p <= length x ->
  startswith (skipn k (x ++ y)) p = startswith (skipn k (x ++ z)) p.
Proof.
  revert k p; induction x as [|c x IH]; intros k p Hk; simpl in Hk.
  - assert (k = 0) by lia; subst k.
    destruct p; [|simpl in Hk; lia]. now destruct y, z.
  - destruct k as [|k]; simpl.
    + destruct p as [|a p]; [reflexivity|]. simpl in Hk. simpl.
      f_equal. apply (IH 0 p). simpl; lia.
    + apply IH. lia.
Qed.

(** A pattern in which [h] does not occur cannot tell two continuations
    apart that both begin with [h]. *)
Lemma startswith_stop (h : ascii) (p x y z : str) :
  ~ In h p ->
  startswith (x ++ h :: y) p = startswith (x ++ h :: z) p.
Proof.
  revert p; induction x as [|c x IH]; intros [|a p] Hp; try reflexivity; simpl.
  - replace (Ascii.eqb a h) with false; [reflexivity|].
    symmetry; apply Ascii.eqb_neq. intros ->. apply Hp; now left.
  - f_equal. apply IH. intros Hin; apply Hp; now right.
Qed.

Lemma startswith_stop_nil (h : ascii) (p x y : str) :
  ~ In h p ->
  startswith (x ++ h :: y) p = startswith x p.
Proof.
  revert p; induction x as [|c x IH]; intros [|a p] Hp; try reflexivity; simpl.
  - replace (Ascii.eqb a h) with false; [reflexivity|].
    symmetry; apply Ascii.eqb_neq. intros ->. apply Hp; now left.
  - f_equal. apply IH. intros Hin; apply Hp; now right.
Qed.

Lemma find_tail_Some (sub s : str) (i j : nat) :
  find_tail sub s i = Some j <->
  i <= j <= i + length s /\ startswith (skipn (j - i) s) sub = true
  /\ forall k, k < j - i -> startswith (skipn k s) sub = false.
Proof.
  revert i; induction s as [|c s IH]; intros i; simpl.
  - destruct (startswith [] sub) eqn:E.
    + split.
      * intros [= <-]. rewrite Nat.sub_diag. simpl. repeat split; try lia; auto.
      * intros (Hj & _ & _). f_equal; lia.
    + split; [discriminate|].
      intros (Hj & Hs & _). destruct (j - i); simpl in Hs; congruence.
  - destruct (startswith (c :: s) sub) eqn:E.
    + split.
      * intros [= <-]. rewrite Nat.sub_diag. simpl. repeat split; try lia; auto.
      * intros (Hj & Hs & Hk).
        destruct (j - i) as [|d] eqn:D; [f_equal; lia|].
        specialize (Hk 0 ltac:(lia)). simpl in Hk. congruence.
    + rewrite IH. split.
      * intros (Hj & Hs & Hk).
        replace (j - i) with (S (j - S i)) by lia. simpl.
        repeat split; try lia; auto.
        intros [|k] Hlt; simpl; auto. apply Hk; lia.
      * intros (Hj & Hs & Hk).
        destruct (j - i) as [|d] eqn:D; [simpl in Hs; congruence|].
        replace (j - S i) with d by lia. simpl in Hs.
        repeat split; try lia; auto.
        intros k Hlt. apply (Hk (S k)). lia.
Qed.

Lemma find_tail_None (sub s : str) (i : nat) :
  find_tail sub s i = None <->
  forall k, k <= length s -> startswith (skipn k s) sub = false.
Proof.
  revert i; induction s as [|c s IH]; intros i; simpl.
  - destruct (startswith [] sub) eqn:E.
    + split; [discriminate|]. intros H. specialize (H 0 ltac:(lia)).
      simpl in H. congruence.
    + split; [|reflexivity]. intros _ k Hk. now destruct k.
  - destruct (startswith (c :: s) sub) eqn:E.
    + split; [discriminate|]. intros H. specialize (H 0 ltac:(lia)).
      simpl in H. congruence.
    + rewrite IH. split.
      * intros H [|k] Hk; simpl; auto. apply H; lia.
      * intros H k Hk. apply (H (S k)). lia.
Qed.

(** [find] returns the first index at or after [start] where [sub] starts. *)
Lemma find_Some (s sub : str) (start j : nat) :
  find s sub start = Some j <->
  start <= j <= length s /\ startswith (skipn j s) sub = true
  /\ forall k, start <= k < j -> startswith (skipn k s) sub = false.
Proof.
  unfold find. destruct (start <=? length s) eqn:L.
  - apply Nat.leb_le in L. rewrite find_tail_Some, length_skipn.
    split.
    + intros (Hj & Hs & Hk). rewrite skipn_skipn in Hs.
      replace (j - start + start) with j in Hs by lia.
      repeat split; try lia; auto.
      intros k Hr. specialize (Hk (k - start) ltac:(lia)).
      rewrite skipn_skipn in Hk.
      now replace (k - start + start) with k in Hk by lia.
    + intros (Hj & Hs & Hk). rewrite skipn_skipn.
      replace (j - start + start) with j by lia.
      repeat split; try lia; auto.
      intros k Hr. rewrite skipn_skipn. apply Hk. lia.
  - apply Nat.leb_gt in L. split; [discriminate|]. intros (Hj & _); lia.
Qed.

Lemma find_None (s sub : str) (start : nat) :
  find s sub start = None <->
  forall k, start <= k <= length s -> startswith (skipn k s) sub = false.
Proof.
  unfold find. destruct (start <=? length s) eqn:L.
  - apply Nat.leb_le in L. rewrite find_tail_None, length_skipn.
    split.
    + intros H k Hk. specialize (H (k - start) ltac:(lia)).
      rewrite skipn_skipn in H.
      now replace (k - start + start) with k in H by lia.
    + intros H k Hk. rewrite skipn_skipn. apply H. lia.
  - apply Nat.leb_gt in L. split; [|reflexivity]. intros _ k Hk. lia.
Qed.

Lemma str_eqb_eq (s t : str) : str_eqb s t = true <-> s = t.
Proof.
  revert t; induction s as [|a s IH]; intros [|b t]; simpl;
    try (split; [discriminate|intros [=]]); [tauto|].
  rewrite andb_true_iff, Ascii.eqb_eq, IH.
  split; [intros [-> ->]; reflexivity|intros [= -> ->]; auto].
Qed.

Lemma str_eqb_neq (s t : str) : str_eqb s t = false <-> s <> t.
Proof.
  rewrite <- str_eqb_eq. destruct (str_eqb s t); split; congruence.
Qed.

End PyFacts.

(** ** Facts about [patch_block] *)

Module FixFacts.
Import Py PyFacts FixBuildSettings.

Lemma first_some_seq_Some {B : Type} (f : nat -> option B) (a n k : nat) (r : B) :
  a <= k < a + n -> f k = Some r -> (forall j, a <= j < k -> f j = None) ->
  first_some f (seq a n) = Some r.
Proof.
  revert a; induction n as [|n IH]; intros a Hk Hf Hbefore; [lia|].
  simpl. destruct (Nat.eq_dec a k) as [->|Hne].
  - now rewrite Hf.
  - rewrite (Hbefore a) by lia. apply IH; [lia|assumption|].
    intros j Hj. apply Hbefore. lia.
Qed.

Lemma first_some_seq_None {B : Type} (f : nat -> option B) (a n : nat) :
  (forall k, a <= k < a + n -> f k = None) -> first_some f (seq a n) = None.
Proof.
  revert a; induction n as [|n IH]; intros a H; [reflexivity|].
  simpl. rewrite (H a) by lia. apply IH. intros k Hk. apply H. lia.
Qed.

(** The leftmost match of [start_pat] starts at the first occurrence of its
    head: an attempt further right cannot succeed where this one fails. *)
Lemma start_pat_search_find (config_id text : str) :
  start_pat_search config_id text =
  match find text (start_pat_head config_id) 0 with
  | Some p =>
      match find text start_pat_tail (p + length (start_pat_head config_id) + 1) with
      | Some q => Some (p, q + length start_pat_tail)
      | None => None
      end
  | None => None
  end.
Proof.
  unfold start_pat_search.
  destruct (find text (start_pat_head config_id) 0) as [p|] eqn:Eh.
  - apply find_Some in Eh as (Hp & Hat & Hbefore).
    destruct (find text start_pat_tail (p + length (start_pat_head config_id) + 1))
      as [q|] eqn:Et.
    + apply first_some_seq_Some with (k := p); [lia| |].
      * unfold start_pat_match_at, slice_from. now rewrite Hat, Et.
      * intros j Hj. unfold start_pat_match_at, slice_from.
        now rewrite Hbefore by lia.
    + apply first_some_seq_None. intros k Hk.
      unfold start_pat_match_at, slice_from.
      destruct (startswith (skipn k text) (start_pat_head config_id)) eqn:Ek;
        [|reflexivity].
      assert (p <= k).
      { destruct (Nat.le_gt_cases p k); [assumption|].
        rewrite Hbefore in Ek by lia. discriminate. }
      replace (find text start_pat_tail (k + length (start_pat_head config_id) + 1))
        with (@None nat); [reflexivity|].
      symmetry. apply find_None. intros j Hj.
      apply (proj1 (find_None _ _ _) Et). lia.
  - apply first_some_seq_None. intros k Hk.
    unfold start_pat_match_at, slice_from.
    rewrite (proj1 (find_None _ _ _) Eh) by (simpl in Hk; lia). reflexivity.
Qed.

(** An occurrence found inside a prefix is found whatever follows the prefix. *)
Lemma find_prefix_stable (x y z sub : str) (start j : nat) :
  find (x ++ y) sub start = Some j -> j + length sub <= length x ->
  find (x ++ z) sub start = Some j.
Proof.
  intros H Hj. apply find_Some in H as (Hr & Hat & Hbefore).
  apply find_Some. rewrite length_app. repeat split; try lia.
  - rewrite (startswith_window x z y) by lia. assumption.
  - intros k Hk. rewrite (startswith_window x z y) by lia. now apply Hbefore.
Qed.

Lemma find_Some_bound (s sub : str) (start j : nat) :
  find s sub start = Some j -> start <= j /\ j + length sub <= length s.
Proof.
  intros H. apply find_Some in H as (Hr & Hat & _).
  apply startswith_length in Hat. rewrite length_skipn in Hat. lia.
Qed.

Lemma settings_region_Some (text config_id : str) (cs be : nat) :
  settings_region text config_id = Some (cs, be) <->
  exists bs_start, cs = bs_start + length BS_OPEN /\ located config_id text bs_start be.
Proof.
  unfold settings_region, located. rewrite start_pat_search_find.
  destruct (find text (start_pat_head config_id) 0) as [p|] eqn:Eh.
  - destruct (find text start_pat_tail _) as [q|] eqn:Et.
    + destruct (find text BS_OPEN _) as [bs|] eqn:Eo.
      * destruct (find text BS_CLOSE bs) as [e|] eqn:Ec.
        -- split.
           ++ intros [= <- <-]. exists bs. split; [reflexivity|].
              exists p, q. auto.
           ++ intros (bs' & -> & p' & q' & [= <-] & H2 & H3 & H4).
              rewrite Et in H2. injection H2 as <-.
              rewrite Eo in H3. injection H3 as <-.
              rewrite Ec in H4. injection H4 as <-. reflexivity.
        -- split; [discriminate|].
           intros (bs' & -> & p' & q' & [= <-] & H2 & H3 & H4).
           rewrite Et in H2. injection H2 as <-.
           rewrite Eo in H3. injection H3 as <-. congruence.
      * split; [discriminate|].
        intros (bs' & -> & p' & q' & [= <-] & H2 & H3 & H4).
        rewrite Et in H2. injection H2 as <-. congruence.
    + split; [discriminate|].
      intros (bs' & -> & p' & q' & [= <-] & H2 & H3 & H4). congruence.
  - split; [discriminate|].
    intros (bs' & -> & p' & q' & H1 & _). discriminate.
Qed.

(** [patch_block] in terms of the region and of what is appended to it. *)
Lemma patch_block_region (text config_id : str) (sw ip : bool) :
  patch_block text config_id sw ip =
  match settings_region text config_id with
  | None => text
  | Some (cs, be) =>
      slice_to text cs ++ slice text cs be
        ++ inserted sw ip (slice text cs be) ++ slice_from text be
  end.
Proof.
  unfold patch_block, settings_region.
  destruct (start_pat_search config_id text) as [[b e]|]; [|reflexivity].
  destruct (find text BS_OPEN e) as [bs|]; [|reflexivity].
  destruct (find text BS_CLOSE bs) as [be|]; [|reflexivity].
  cbv zeta. unfold inserted, swift_insert, infoplist_insert.
  set (c := slice text (bs + length BS_OPEN) be).
  destruct (sw && negb (contains SWIFT_KEY c)).
  - destruct (ip && negb (contains INFOPLIST_KEY (c ++ [NL] ++ SWIFT_VERSION_LINE))).
    + now rewrite <- !app_assoc.
    + now rewrite app_nil_r, <- !app_assoc.
  - rewrite !app_nil_r. simpl app at 1.
    destruct (ip && negb (contains INFOPLIST_KEY c)).
    + now rewrite <- !app_assoc.
    + now rewrite app_nil_r.
Qed.

Lemma skipn_app_le {A : Type} (x y : list A) (k : nat) :
  k <= length x -> skipn k (x ++ y) = skipn k x ++ y.
Proof.
  intros H. rewrite skipn_app.
  replace (k - length x) with 0 by lia. reflexivity.
Qed.

Lemma skipn_app_ge {A : Type} (x y : list A) (k : nat) :
  length x <= k -> skipn k (x ++ y) = skipn (k - length x) y.
Proof.
  intros H. rewrite skipn_app, skipn_all2 by lia. reflexivity.
Qed.

(** The terminator starts with a newline, and the marker has none. *)
Lemma bs_close_not_in_open (r : str) (d : nat) :
  d < length BS_OPEN -> startswith (skipn d (BS_OPEN ++ r)) BS_CLOSE = false.
Proof.
  intros H. do 17 (destruct d as [|d]; [reflexivity|]).
  simpl in H. lia.
Qed.

Lemma located_bounds (config_id text : str) (bs be : nat) :
  located config_id text bs be ->
  bs + length BS_OPEN <= be /\ be + length BS_CLOSE <= length text
  /\ startswith (skipn be text) BS_CLOSE = true.
Proof.
  intros (p & q & Hp & Hq & Ho & Hc).
  pose proof (find_Some_bound _ _ _ _ Hc) as [Hle Hlen].
  apply find_Some in Ho as (_ & Hopen & _).
  apply find_Some in Hc as (_ & Hclose & _).
  repeat split; try assumption.
  destruct (Nat.le_gt_cases (bs + length BS_OPEN) be) as [|Hlt]; [assumption|].
  exfalso. apply startswith_true in Hopen as [r Hr].
  replace be with ((be - bs) + bs) in Hclose by lia.
  rewrite <- skipn_skipn, Hr, bs_close_not_in_open in Hclose by lia.
  discriminate.
Qed.

(** Inserting [ins] just before the terminator moves the terminator and
    nothing else, when the terminator does not start inside [ins]. *)
Lemma located_insert (config_id x y ins : str) (bs : nat) :
  located config_id (x ++ y) bs (length x) ->
  (exists w, ins ++ y = NL :: w) ->
  (forall i, i < length ins ->
             startswith (skipn i (ins ++ y)) BS_CLOSE = false) ->
  located config_id (x ++ ins ++ y) bs (length x + length ins).
Proof.
  intros Hloc [w Hw] Hclear.
  destruct (located_bounds _ _ _ _ Hloc) as (Hbs & Hbe & Hat).
  destruct Hloc as (p & q & Hp & Hq & Ho & Hc).
  pose proof (find_Some_bound _ _ _ _ Hp) as [_ B1].
  pose proof (find_Some_bound _ _ _ _ Hq) as [B2 B3].
  pose proof (find_Some_bound _ _ _ _ Ho) as [B4 B5].
  exists p, q. repeat split.
  - apply find_prefix_stable with (y := y); [assumption|lia].
  - apply find_prefix_stable with (y := y); [assumption|lia].
  - apply find_prefix_stable with (y := y); [assumption|lia].
  - apply find_Some in Hc as (_ & _ & Hbefore).
    rewrite skipn_app_ge, Nat.sub_diag in Hat by lia. cbn [skipn] in Hat.
    apply find_Some. rewrite !length_app. repeat split; try lia.
    + rewrite skipn_app_ge by lia.
      replace (length x + length ins - length x) with (length ins) by lia.
      rewrite skipn_app_ge, Nat.sub_diag by lia. assumption.
    + intros k Hk. destruct (Nat.lt_ge_cases k (length x)) as [Hin|Hout].
      * specialize (Hbefore k ltac:(lia)).
        rewrite skipn_app_le in Hbefore |- * by lia.
        destruct (skipn k x) as [|c x'] eqn:Ex.
        { apply (f_equal (@length ascii)) in Ex.
          rewrite length_skipn in Ex. simpl in Ex. lia. }
        apply startswith_true in Hat as [r Hr].
        rewrite Hr in Hbefore. rewrite Hw.
        pose (tl := [TAB; TAB; TAB] ++ lit "};").
        change (BS_CLOSE ++ r) with (NL :: (tl ++ r)) in Hbefore.
        change BS_CLOSE with (NL :: tl) in Hbefore |- *.
        rewrite <- app_comm_cons, startswith_cons in Hbefore |- *.
        destruct (Ascii.eqb NL c); [|reflexivity].
        rewrite andb_true_l in Hbefore |- *.
        rewrite <- Hbefore. apply startswith_stop.
        intros H. vm_compute in H. intuition discriminate.
      * rewrite skipn_app_ge by lia. apply Hclear. lia.
Qed.

Lemma inserted_cases (sw ip : bool) (c : str) :
  let A := [NL] ++ SWIFT_VERSION_LINE in
  let B := [NL] ++ GENERATE_INFOPLIST_LINE in
  inserted sw ip c = [] \/ inserted sw ip c = A
  \/ inserted sw ip c = B \/ inserted sw ip c = A ++ B.
Proof.
  unfold inserted, swift_insert, infoplist_insert.
  destruct (sw && negb (contains SWIFT_KEY c)).
  - destruct (ip && negb (contains INFOPLIST_KEY _)).
    + right; right; right; reflexivity.
    + right; left. now rewrite app_nil_r.
  - rewrite app_nil_r. destruct (ip && negb (contains INFOPLIST_KEY c)).
    + right; right; left; reflexivity.
    + left; reflexivity.
Qed.

Lemma no_start_inside (sub ins y : str) :
  forallb (fun i => negb (startswith (skipn i (ins ++ y)) sub))
          (seq 0 (length ins)) = true ->
  forall i, i < length ins -> startswith (skipn i (ins ++ y)) sub = false.
Proof.
  intros H i Hi. rewrite forallb_forall in H.
  specialize (H i). rewrite in_seq in H.
  apply negb_true_iff, H. lia.
Qed.

(** The terminator does not start inside what [patch_block] inserts. *)
Lemma inserted_clear (sw ip : bool) (c r : str) (i : nat) :
  i < length (inserted sw ip c) ->
  startswith (skipn i (inserted sw ip c ++ BS_CLOSE ++ r)) BS_CLOSE = false.
Proof.
  revert i.
  destruct (inserted_cases sw ip c) as [E|[E|[E|E]]]; rewrite E;
    apply no_start_inside; reflexivity.
Qed.

Lemma inserted_head (sw ip : bool) (c r : str) :
  exists w, inserted sw ip c ++ BS_CLOSE ++ r = NL :: w.
Proof.
  destruct (inserted_cases sw ip c) as [E|[E|[E|E]]]; rewrite E;
    eexists; reflexivity.
Qed.

Lemma firstn_exact {A : Type} (a b : list A) (n : nat) :
  n = length a -> firstn n (a ++ b) = a.
Proof.
  intros ->. rewrite firstn_app, Nat.sub_diag, firstn_all. simpl.
  apply app_nil_r.
Qed.

Lemma firstn_slice (s : str) (a b : nat) :
  a <= b -> slice_to s a ++ slice s a b = firstn b s.
Proof.
  intros H. unfold slice_to, slice.
  rewrite <- (firstn_skipn a (firstn b s)), firstn_firstn, skipn_firstn_comm.
  now replace (Nat.min a b) with a by lia.
Qed.

(** The shape of the result when the region is found: the text is cut at
    [bs_end], and the region is found again, longer by what was inserted. *)
Lemma patched_region (text config_id : str) (sw ip : bool) (cs be : nat) :
  settings_region text config_id = Some (cs, be) ->
  let c := slice text cs be in
  let text' := patch_block text config_id sw ip in
  cs <= be <= length text
  /\ text' = firstn be text ++ inserted sw ip c ++ skipn be text
  /\ startswith (skipn be text) BS_CLOSE = true
  /\ settings_region text' config_id = Some (cs, be + length (inserted sw ip c))
  /\ slice text' cs (be + length (inserted sw ip c)) = c ++ inserted sw ip c.
Proof.
  intros Hreg c text'.
  assert (Htext' : text' = slice_to text cs ++ c ++ inserted sw ip c
                             ++ slice_from text be).
  { unfold text'. rewrite patch_block_region, Hreg. reflexivity. }
  apply settings_region_Some in Hreg as (bs & -> & Hloc).
  destruct (located_bounds _ _ _ _ Hloc) as (Hbs & Hbe & Hat).
  assert (Hlen : length (firstn be text) = be) by (rewrite length_firstn; lia).
  assert (Hcut : text' = firstn be text ++ inserted sw ip c ++ skipn be text).
  { rewrite Htext', app_assoc. unfold c. rewrite firstn_slice by lia.
    reflexivity. }
  destruct (startswith_true _ _ Hat) as [r Hr].
  assert (Hloc' : located config_id text' bs (be + length (inserted sw ip c))).
  { rewrite Hcut.
    assert (H : located config_id
                  (firstn be text ++ inserted sw ip c ++ skipn be text) bs
                  (length (firstn be text) + length (inserted sw ip c))).
    { apply located_insert.
      - now rewrite firstn_skipn, Hlen.
      - rewrite Hr. apply inserted_head.
      - rewrite Hr. intros i. apply inserted_clear. }
    now rewrite Hlen in H. }
  repeat split; try lia; try assumption.
  - apply settings_region_Some. exists bs. split; [reflexivity|assumption].
  - rewrite Hcut. unfold slice.
    rewrite skipn_app_le by lia.
    rewrite skipn_firstn_comm. fold (slice text (bs + length BS_OPEN) be).
    fold c. rewrite app_assoc. apply firstn_exact.
    rewrite length_app. unfold c, slice.
    rewrite length_firstn, length_skipn. lia.
Qed.

Lemma patch_block_not_located (text config_id : str) (sw ip : bool) :
  settings_region text config_id = None ->
  patch_block text config_id sw ip = text.
Proof.
  intros H. now rewrite patch_block_region, H.
Qed.

Lemma contains_true (sub s : str) :
  contains sub s = true <->
  exists k, k <= length s /\ startswith (skipn k s) sub = true.
Proof.
  unfold contains. destruct (find s sub 0) as [j|] eqn:E.
  - apply find_Some in E as (Hj & Hat & _).
    split; [|reflexivity]. intros _. exists j. split; [lia|assumption].
  - split; [discriminate|]. intros (k & Hk & Hat).
    rewrite (proj1 (find_None _ _ _) E) in Hat by lia. discriminate.
Qed.

Lemma contains_app_l (sub a b : str) :
  contains sub a = true -> contains sub (a ++ b) = true.
Proof.
  rewrite !contains_true. intros (k & Hk & Hat).
  exists k. rewrite length_app. split; [lia|].
  rewrite skipn_app_le by lia.
  apply startswith_true in Hat as [r ->].
  rewrite <- app_assoc. apply startswith_app.
Qed.

Lemma contains_app_r (sub a b : str) :
  contains sub b = true -> contains sub (a ++ b) = true.
Proof.
  rewrite !contains_true. intros (k & Hk & Hat).
  exists (length a + k). rewrite length_app. split; [lia|].
  rewrite skipn_app_ge by lia.
  now replace (length a + k - length a) with k by lia.
Qed.

(** After the insertion both checks of [patch_block] find their key. *)
Lemma swift_check_after (sw ip : bool) (c : str) :
  sw && negb (contains SWIFT_KEY (c ++ inserted sw ip c)) = false.
Proof.
  destruct sw; [simpl|reflexivity]. apply negb_false_iff.
  unfold inserted, swift_insert. simpl andb.
  destruct (contains SWIFT_KEY c) eqn:E; simpl negb; cbv iota.
  - now apply contains_app_l.
  - apply contains_app_r, contains_app_l. reflexivity.
Qed.

Lemma infoplist_check_after (sw ip : bool) (c : str) :
  ip && negb (contains INFOPLIST_KEY (c ++ inserted sw ip c)) = false.
Proof.
  destruct ip; [simpl|reflexivity]. apply negb_false_iff.
  unfold inserted, infoplist_insert. simpl andb.
  destruct (contains INFOPLIST_KEY (c ++ swift_insert sw c)) eqn:E;
    simpl negb; cbv iota.
  - now rewrite app_nil_r.
  - apply contains_app_r, contains_app_r. reflexivity.
Qed.

Lemma inserted_again (sw ip : bool) (c : str) :
  inserted sw ip (c ++ inserted sw ip c) = [].
Proof.
  unfold inserted at 1. unfold swift_insert at 1 2.
  rewrite swift_check_after. rewrite app_nil_r. unfold infoplist_insert.
  now rewrite infoplist_check_after.
Qed.

(** The text is put together again from its three slices. *)
Lemma slices_join (s : str) (a b : nat) :
  a <= b -> slice_to s a ++ slice s a b ++ slice_from s b = s.
Proof.
  intros H. rewrite app_assoc, firstn_slice by assumption.
  apply firstn_skipn.
Qed.

Lemma occurrences_pos (key s : str) :
  0 < occurrences key s <->
  exists k, k <= length s /\ startswith (skipn k s) key = true.
Proof.
  induction s as [|c s IH].
  - simpl. destruct (startswith [] key) eqn:E.
    + split; [|lia]. intros _. exists 0. auto.
    + split; [lia|]. intros ([|k] & Hk & Hat); simpl in *; [congruence|lia].
  - cbn [occurrences]. destruct (startswith (c :: s) key) eqn:E.
    + split; [|lia]. intros _. exists 0. split; [lia|assumption].
    + split.
      * intros H. destruct (proj1 IH ltac:(lia)) as (k & Hk & Hat).
        exists (S k). split; [simpl; lia|assumption].
      * intros ([|k] & Hk & Hat); [simpl in Hat; congruence|].
        simpl in Hk, Hat. cut (0 < occurrences key s); [lia|].
        apply IH. exists k. split; [lia|assumption].
Qed.

Lemma contains_occurrences (key s : str) :
  contains key s = negb (occurrences key s =? 0).
Proof.
  destruct (contains key s) eqn:E.
  - apply contains_true, occurrences_pos in E.
    symmetry. apply negb_true_iff, Nat.eqb_neq. lia.
  - symmetry. apply negb_false_iff, Nat.eqb_eq.
    destruct (occurrences key s) eqn:O; [reflexivity|].
    assert (H : 0 < occurrences key s) by lia.
    apply occurrences_pos, contains_true in H. congruence.
Qed.

(** A key without [h] does not start before an [h] and run over it. *)
Lemma occurrences_app_stop (h : ascii) (key a b : str) :
  ~ In h key -> startswith [] key = false ->
  occurrences key (a ++ h :: b) = occurrences key a + occurrences key (h :: b).
Proof.
  intros Hh Hne. induction a as [|c a IH].
  - change (occurrences key []) with ((if startswith [] key then 1 else 0) + 0).
    rewrite Hne. reflexivity.
  - pose proof (startswith_stop_nil h key (c :: a) b Hh) as Hs.
    remember (h :: b) as hb eqn:Ehb.
    change ((c :: a) ++ hb) with (c :: (a ++ hb)) in Hs |- *.
    cbn [occurrences]. rewrite IH, Hs. lia.
Qed.

Lemma swift_key_no_NL : ~ In NL SWIFT_KEY.
Proof. intros H. vm_compute in H. intuition discriminate. Qed.

Lemma infoplist_key_no_NL : ~ In NL INFOPLIST_KEY.
Proof. intros H. vm_compute in H. intuition discriminate. Qed.

(** How often each key occurs in the region after the insertion. *)
Lemma occurrences_swift_after (sw ip : bool) (c : str) :
  occurrences SWIFT_KEY (c ++ inserted sw ip c) =
  occurrences SWIFT_KEY c + (if sw && negb (contains SWIFT_KEY c) then 1 else 0).
Proof.
  unfold inserted, swift_insert, infoplist_insert.
  destruct (sw && negb (contains SWIFT_KEY c)).
  - destruct (ip && negb (contains INFOPLIST_KEY _));
      cbn [app]; rewrite (occurrences_app_stop NL _ c _ swift_key_no_NL eq_refl);
      reflexivity.
  - rewrite app_nil_r. cbn [app].
    destruct (ip && negb (contains INFOPLIST_KEY c)).
    + cbn [app]. rewrite (occurrences_app_stop NL _ c _ swift_key_no_NL eq_refl).
      reflexivity.
    + rewrite app_nil_r. lia.
Qed.

Lemma contains_infoplist_swift_insert (sw : bool) (c : str) :
  contains INFOPLIST_KEY (c ++ swift_insert sw c) = contains INFOPLIST_KEY c.
Proof.
  rewrite !contains_occurrences. f_equal. f_equal.
  unfold swift_insert. destruct (sw && negb (contains SWIFT_KEY c)).
  - cbn [app].
    rewrite (occurrences_app_stop NL _ c _ infoplist_key_no_NL eq_refl).
    change (occurrences INFOPLIST_KEY (NL :: SWIFT_VERSION_LINE)) with 0. lia.
  - now rewrite app_nil_r.
Qed.

Lemma occurrences_infoplist_after (sw ip : bool) (c : str) :
  occurrences INFOPLIST_KEY (c ++ inserted sw ip c) =
  occurrences INFOPLIST_KEY c
  + (if ip && negb (contains INFOPLIST_KEY c) then 1 else 0).
Proof.
  unfold inserted, infoplist_insert.
  rewrite contains_infoplist_swift_insert. unfold swift_insert.
  destruct (sw && negb (contains SWIFT_KEY c)).
  - destruct (ip && negb (contains INFOPLIST_KEY c));
      cbn [app];
      rewrite (occurrences_app_stop NL _ c _ infoplist_key_no_NL eq_refl);
      reflexivity.
  - cbn [app]. destruct (ip && negb (contains INFOPLIST_KEY c)).
    + rewrite (occurrences_app_stop NL _ c _ infoplist_key_no_NL eq_refl).
      reflexivity.
    + rewrite app_nil_r. lia.
Qed.



(** The lines of the report, one for each entry of [CONFIGS]. *)
Lemma report_lines :
  map report_line CONFIGS =
  map lit [ " - Project Debug (F41FD0242E2A467000909132)";
            " - Project Release (F41FD0252E2A467000909132)";
            " - NoesisNoema Debug (F41FD0272E2A467000909132)";
            " - NoesisNoema Release (F41FD0282E2A467000909132)";
            " - LlamaBridgeTest Debug (F460884E2E2CD45000D4C555)";
            " - LlamaBridgeTest Release (F460884F2E2CD45000D4C555)";
            " - NoesisNoemaMobile Debug (F4C581062E4F006800E64194)";
            " - NoesisNoemaMobile Release (F4C581072E4F006800E64194)" ]%string.
Proof. vm_compute. reflexivity. Qed.

Lemma main_changed (file : str) :
  patch_all file <> file ->
  main file = Outcome (Some (patch_all file))
                      (lit "Patched:" :: map report_line CONFIGS).
Proof.
  intros Hne. apply str_eqb_neq in Hne. unfold main. rewrite Hne. reflexivity.
Qed.

End FixFacts.

(** ** Properties of scripts/fix_build_settings.py *)

Module FixClaims.
Import Py PyFacts FixBuildSettings FixFacts Samples.

(** C4: [patch_block] is idempotent.  For every text, block identifier and
    pair of flags, applying [patch_block] twice with the same arguments gives
    the same text as applying it once. *)
Theorem patch_block_idempotent (text config_id : str) (sw ip : bool) :
  patch_block (patch_block text config_id sw ip) config_id sw ip
  = patch_block text config_id sw ip.
Proof.
  destruct (settings_region text config_id) as [[cs be]|] eqn:Hreg.
  - destruct (@patched_region text config_id sw ip cs be Hreg) as (Hle & _ & _ & Hreg' & Hslice).
    rewrite (patch_block_region (patch_block text config_id sw ip)).
    rewrite Hreg', Hslice, inserted_again. cbn [app].
    rewrite <- Hslice. apply slices_join. lia.
  - now rewrite !(@patch_block_not_located text config_id sw ip Hreg).
Qed.

(** C10: the text returned by [patch_block] is never shorter than its input,
    and it is either the input itself or the input with one or two of the
    fixed setting lines, each preceded by a newline, inserted at one place
    inside it: the text before that place, which is not empty, and the text
    from the region terminator on are kept as they are. *)
Theorem patch_block_only_inserts (text config_id : str) (sw ip : bool) :
  let text' := patch_block text config_id sw ip in
  length text <= length text'
  /\ (text' = text
      \/ exists pre ins suf,
           text = pre ++ suf /\ text' = pre ++ ins ++ suf
           /\ (ins = [NL] ++ SWIFT_VERSION_LINE
               \/ ins = [NL] ++ GENERATE_INFOPLIST_LINE
               \/ ins = ([NL] ++ SWIFT_VERSION_LINE)
                          ++ [NL] ++ GENERATE_INFOPLIST_LINE)
           /\ pre <> [] /\ startswith suf BS_CLOSE = true).
Proof.
  intros text'. unfold text'.
  destruct (settings_region text config_id) as [[cs be]|] eqn:Hreg.
  - destruct (@patched_region text config_id sw ip cs be Hreg) as (Hle & Hcut & Hat & _ & _).
    pose proof Hreg as Hloc. apply settings_region_Some in Hloc as (bs & -> & _).
    split.
    + rewrite Hcut, !length_app, length_firstn, length_skipn. lia.
    + destruct (inserted_cases sw ip (slice text (bs + length BS_OPEN) be))
        as [E|E].
      * left. rewrite Hcut, E. apply firstn_skipn.
      * right. exists (firstn be text), (inserted sw ip (slice text (bs + length BS_OPEN) be)),
          (skipn be text).
        repeat split; try assumption.
        -- symmetry. apply firstn_skipn.
        -- intros Hnil. apply (f_equal (@length ascii)) in Hnil.
           rewrite length_firstn in Hnil. simpl in Hnil, Hle. lia.
  - rewrite (@patch_block_not_located text config_id sw ip Hreg). split; [lia|now left].
Qed.

(** C6: when the block and its settings region are located, the patched text
    has its settings region at the same place, and for each of the two keys:
    a key that already occurs in the content of the region occurs as often
    after the patch as before, so that no second setting line is added, and a
    key that occurs at most once before the patch occurs at most once after
    it. *)
Theorem patch_block_no_duplicate (text config_id : str) (sw ip : bool) (cs be : nat) :
  settings_region text config_id = Some (cs, be) ->
  exists be',
    settings_region (patch_block text config_id sw ip) config_id = Some (cs, be')
    /\ (contains SWIFT_KEY (slice text cs be) = true ->
        occurrences SWIFT_KEY (slice (patch_block text config_id sw ip) cs be')
        = occurrences SWIFT_KEY (slice text cs be))
    /\ (contains INFOPLIST_KEY (slice text cs be) = true ->
        occurrences INFOPLIST_KEY (slice (patch_block text config_id sw ip) cs be')
        = occurrences INFOPLIST_KEY (slice text cs be))
    /\ (occurrences SWIFT_KEY (slice text cs be) <= 1 ->
        occurrences SWIFT_KEY (slice (patch_block text config_id sw ip) cs be') <= 1)
    /\ (occurrences INFOPLIST_KEY (slice text cs be) <= 1 ->
        occurrences INFOPLIST_KEY (slice (patch_block text config_id sw ip) cs be') <= 1).
Proof.
  intros Hreg.
  destruct (@patched_region text config_id sw ip cs be Hreg) as (_ & _ & _ & Hreg' & Hslice).
  exists (be + length (inserted sw ip (slice text cs be))).
  split; [assumption|]. rewrite Hslice.
  rewrite occurrences_swift_after, occurrences_infoplist_after.
  rewrite !contains_occurrences.
  repeat split.
  - intros ->. rewrite andb_false_r. lia.
  - intros ->. rewrite andb_false_r. lia.
  - intros H. destruct (occurrences SWIFT_KEY (slice text cs be)) as [|[|n]];
      destruct sw; simpl; lia.
  - intros H. destruct (occurrences INFOPLIST_KEY (slice text cs be)) as [|[|n]];
      destruct ip; simpl; lia.
Qed.

(** The region of [debug_block_swift] is located and has [SWIFT_VERSION]
    once; patching it for both settings leaves that key occurring once. *)
Lemma patch_block_no_duplicate_witness :
  exists be',
    settings_region (patch_block debug_block_swift ID_PROJECT_DEBUG true true)
                    ID_PROJECT_DEBUG = Some (135, be')
    /\ occurrences SWIFT_KEY
         (slice (patch_block debug_block_swift ID_PROJECT_DEBUG true true) 135 be')
       = 1.
Proof.
  destruct (@patch_block_no_duplicate debug_block_swift ID_PROJECT_DEBUG
              true true 135 182 eq_refl)
    as (be' & Hreg & Hswift & _).
  exists be'. split; [exact Hreg|]. exact (Hswift eq_refl).
Defined.

(** C2: [patch_block] reaches into the next block.  In [two_blocks] the
    block opened by the identifier has no settings region of its own, and
    the call does not return the text unchanged: it adds the
    [SWIFT_VERSION] line to the settings region of the block that follows. *)
Theorem patch_block_reaches_next_block :
  two_blocks = bare_debug_block ++ release_block
  /\ contains BS_OPEN bare_debug_block = false
  /\ patch_block two_blocks ID_PROJECT_DEBUG true false
     = bare_debug_block ++ release_block_swift
  /\ patch_block two_blocks ID_PROJECT_DEBUG true false <> two_blocks.
Proof.
  split; [reflexivity|]. split; [reflexivity|]. split.
  - apply str_eqb_eq. reflexivity.
  - apply str_eqb_neq. reflexivity.
Qed.

(** C3 as stated fails: for [debug_block] only the first entry of [CONFIGS]
    is modified, and the report has a line for each of the eight entries. *)
Lemma main_report_lists_unmodified_blocks :
  ~ (forall file : str,
        patch_all file <> file ->
        tl (stdout (main file)) = map report_line (modified_blocks CONFIGS file)).
Proof.
  intros H. specialize (H debug_block).
  assert (Hne : patch_all debug_block <> debug_block).
  { apply str_eqb_neq. reflexivity. }
  apply H in Hne. apply (f_equal (@length str)) in Hne.
  vm_compute in Hne. discriminate Hne.
Qed.

(** C3, amended: when the text after the loop differs from the original,
    [main] writes that text back and prints the line [Patched:] followed by
    one line with the name and the identifier of every entry of [CONFIGS],
    in the order of the table, whichever blocks were modified; the lines do
    not say which settings were added. *)
Theorem main_report_all_entries (file : str) :
  patch_all file <> file ->
  written (main file) = Some (patch_all file)
  /\ stdout (main file) = lit "Patched:" :: map report_line CONFIGS
  /\ map report_line CONFIGS =
     map lit [ " - Project Debug (F41FD0242E2A467000909132)";
               " - Project Release (F41FD0252E2A467000909132)";
               " - NoesisNoema Debug (F41FD0272E2A467000909132)";
               " - NoesisNoema Release (F41FD0282E2A467000909132)";
               " - LlamaBridgeTest Debug (F460884E2E2CD45000D4C555)";
               " - LlamaBridgeTest Release (F460884F2E2CD45000D4C555)";
               " - NoesisNoemaMobile Debug (F4C581062E4F006800E64194)";
               " - NoesisNoemaMobile Release (F4C581072E4F006800E64194)" ]%string.
Proof.
  intros Hne. pose proof (@main_changed file Hne) as E.
  split; [now rewrite E|]. split; [now rewrite E|]. exact report_lines.
Qed.

Lemma main_report_all_entries_witness :
  patch_all debug_block <> debug_block
  /\ length (stdout (main debug_block)) = 9.
Proof.
  assert (Hne : patch_all debug_block <> debug_block).
  { apply str_eqb_neq. reflexivity. }
  split; [exact Hne|].
  destruct (main_report_all_entries debug_block Hne) as (_ & Hout & _).
  rewrite Hout. reflexivity.
Defined.

End FixClaims.

(** ** Facts about the path substitution and the line filter *)

Module PathFacts.
Import Py PyFacts PatchXcframeworkPaths.

Lemma strip_prefix_Some (p s r : str) :
  strip_prefix p s = Some r -> s = p ++ r.
Proof.
  revert s; induction p as [|a p IH]; intros [|b s] H; simpl in H;
    try discriminate; try (injection H as <-; reflexivity).
  destruct (Ascii.eqb a b) eqn:E; [|discriminate].
  apply Ascii.eqb_eq in E. subst b. simpl. f_equal. now apply IH.
Qed.

Lemma span_space_spec (s ws r : str) :
  span_space s = (ws, r) -> s = ws ++ r /\ forallb isspace ws = true.
Proof.
  revert ws r; induction s as [|c s IH]; intros ws r H; simpl in H.
  - injection H as <- <-. auto.
  - destruct (isspace c) eqn:E.
    + destruct (span_space s) as [ws' r'] eqn:Es.
      injection H as <- <-. destruct (IH _ _ eq_refl) as [-> Hws].
      simpl. rewrite E. auto.
    + injection H as <- <-. auto.
Qed.

(** A match is the old path, white space and the equals sign. *)
Lemma path_match_at_Some (fname : str) (prev : option ascii) (s g2 rest : str) :
  path_match_at fname prev s = Some (g2, rest) ->
  exists ws, g2 = ws ++ [EQUALS] /\ forallb isspace ws = true
             /\ s = FRAMEWORKS ++ fname ++ ws ++ [EQUALS] ++ rest.
Proof.
  unfold path_match_at. intros H.
  destruct (word_boundary prev (hd_error s)); [|discriminate].
  destruct (strip_prefix (FRAMEWORKS ++ fname) s) as [r|] eqn:Ep; [|discriminate].
  apply strip_prefix_Some in Ep.
  destruct (span_space r) as [ws r'] eqn:Es.
  apply span_space_spec in Es as [-> Hws].
  destruct r' as [|c r']; [discriminate|].
  destruct (Ascii.eqb c EQUALS) eqn:Ec; [|discriminate].
  apply Ascii.eqb_eq in Ec. subst c. injection H as <- <-.
  exists ws. repeat split; [assumption|].
  rewrite Ep, <- app_assoc. reflexivity.
Qed.

(** The scan only rewrites in the scoped way, given fuel for every
    character. *)
Lemma sub_scan_scoped (fname : str) (fuel : nat) :
  forall (prev : option ascii) (s : str),
    length s < fuel -> scoped_rewrite fname s (sub_scan fuel fname prev s).
Proof.
  induction fuel as [|fuel IH]; intros prev s Hlen; [lia|].
  cbn [sub_scan].
  destruct (path_match_at fname prev s) as [[g2 rest]|] eqn:Em.
  - apply path_match_at_Some in Em as (ws & -> & Hws & ->).
    rewrite <- (app_assoc ws [EQUALS]).
    apply scoped_subst; [assumption|]. apply IH.
    rewrite !length_app in Hlen. simpl in Hlen. lia.
  - destruct s as [|c s]; [constructor|].
    apply scoped_copy, IH. simpl in Hlen. lia.
Qed.

(** Without an old path in front of the assignment context, a scoped
    rewrite copies everything. *)
Lemma scoped_identity (fname s o : str) :
  scoped_rewrite fname s o ->
  (forall k, ~ assigned_at fname (skipn k s)) -> o = s.
Proof.
  induction 1 as [|c s o _ IH|ws s o Hws _ _]; intros Hno.
  - reflexivity.
  - f_equal. apply IH. intros k. apply (Hno (S k)).
  - exfalso. apply (Hno 0). exists (ws ++ [EQUALS] ++ s).
    split; [reflexivity|]. exists ws, s. auto.
Qed.

(** A scoped rewrite copies a run of characters without an [F]: every
    occurrence of the old path starts with one. *)
Lemma scoped_copy_run (fname u r o : str) :
  ~ In "F"%char u -> scoped_rewrite fname (u ++ r) o ->
  exists r', o = u ++ r' /\ scoped_rewrite fname r r'.
Proof.
  revert o; induction u as [|c u IH]; intros o HF H.
  - exists o. auto.
  - remember ((c :: u) ++ r) as t eqn:Et.
    destruct H as [|c0 s o H|ws s o Hws H].
    + discriminate.
    + injection Et as -> ->.
      destruct (IH o) as (r' & -> & Hr); [|assumption|].
      { intros Hin. apply HF. now right. }
      exists r'. auto.
    + exfalso. injection Et as E _. apply HF. left. now rewrite <- E.
Qed.

Lemma isspace_run_no_F (ws : str) :
  forallb isspace ws = true -> ~ In "F"%char ws.
Proof.
  intros Hws Hin. rewrite forallb_forall in Hws.
  apply Hws in Hin. discriminate Hin.
Qed.

(** An occurrence of the old path that the assignment context does not
    follow lies outside every rewritten place, and is copied. *)
Lemma scoped_keeps (fname t o : str) :
  ~ In "F"%char fname ->
  scoped_rewrite fname t o ->
  forall a r,
    t = a ++ (FRAMEWORKS ++ fname) ++ r -> ~ assignment_context r ->
    exists a' r',
      o = a' ++ (FRAMEWORKS ++ fname) ++ r'
      /\ scoped_rewrite fname a a' /\ scoped_rewrite fname r r'.
Proof.
  intros HF H.
  assert (HtlF : ~ In "F"%char (lit "rameworks/" ++ fname)).
  { intros Hin. apply in_app_or in Hin as [Hin|Hin]; [|now apply HF].
    vm_compute in Hin. intuition discriminate. }
  assert (EF : FRAMEWORKS = "F"%char :: lit "rameworks/") by reflexivity.
  remember (lit "rameworks/") as tlF eqn:EtlF. clear EtlF.
  induction H as [|c s o H IH|ws s o Hws H IH]; intros a r Et Hctx.
  - rewrite EF in Et. destruct a; discriminate.
  - destruct a as [|c' a].
    + rewrite EF in Et. cbn [app] in Et. injection Et as -> ->.
      destruct (scoped_copy_run _ _ _ _ HtlF H) as (r' & -> & Hr).
      exists [], r'. rewrite EF.
      split; [reflexivity|]. split; [constructor|assumption].
    + cbn [app] in Et. injection Et as -> ->.
      destruct (IH _ _ eq_refl Hctx) as (a' & r' & -> & Ha & Hr).
      exists (c' :: a'), r'. split; [reflexivity|].
      split; [now apply scoped_copy|assumption].
  - assert (Em : (FRAMEWORKS ++ fname ++ ws ++ [EQUALS]) ++ s
                 = a ++ ((FRAMEWORKS ++ fname) ++ r)).
    { rewrite <- Et, <- !app_assoc. reflexivity. }
    apply app_eq_app in Em as [l [[Em Er]|[Ea Es]]].
    + destruct l as [|x l].
      * rewrite app_nil_r in Em. cbn [app] in Er.
        destruct (IH [] r (eq_sym Er) Hctx) as (a' & r' & -> & Ha & Hr).
        inversion Ha; subst.
        exists (FRAMEWORKS ++ XCFRAMEWORKS ++ fname ++ ws ++ [EQUALS]), r'.
        split; [rewrite <- !app_assoc; reflexivity|]. split; [|assumption].
        rewrite <- (app_nil_r (FRAMEWORKS ++ fname ++ ws ++ [EQUALS])).
        rewrite <- (app_nil_r (FRAMEWORKS ++ XCFRAMEWORKS ++ fname ++ ws ++ [EQUALS])).
        rewrite <- !app_assoc. apply scoped_subst; [assumption|constructor].
      * exfalso. rewrite EF in Em, Er.
        cbn [app] in Er. injection Er as <- Er.
        destruct a as [|y a]; cbn [app] in Em.
        -- injection Em as <-.
           rewrite <- !app_assoc in Er.
           do 2 apply app_inv_head in Er.
           apply Hctx. exists ws, s. auto.
        -- injection Em as _ Em.
           assert (Hin : In "F"%char (tlF ++ fname ++ ws ++ [EQUALS])).
           { rewrite Em. apply in_or_app. right. now left. }
           rewrite app_assoc in Hin.
           apply in_app_or in Hin as [Hin|Hin]; [now apply HtlF|].
           apply in_app_or in Hin as [Hin|Hin].
           ++ now apply (isspace_run_no_F ws).
           ++ destruct Hin as [Hin|[]]. discriminate Hin.
    + destruct (IH l r Es Hctx) as (l' & r' & -> & Hl & Hr).
      exists ((FRAMEWORKS ++ XCFRAMEWORKS ++ fname ++ ws ++ [EQUALS]) ++ l'), r'.
      split; [rewrite <- !app_assoc; reflexivity|]. split; [|assumption].
      rewrite Ea, <- !app_assoc. now apply scoped_subst.
Qed.

(** The loop keeps the lines that are not stale, in their order. *)
Lemma keep_loop_filter (keep lines : list str) :
  keep_loop keep lines
  = keep ++ filter (fun line => negb (is_stale (strip line))) lines.
Proof.
  revert keep; induction lines as [|line rest IH]; intros keep; simpl.
  - now rewrite app_nil_r.
  - destruct (is_stale (strip line)); simpl.
    + apply IH.
    + rewrite IH, <- app_assoc. reflexivity.
Qed.

Lemma is_stale_true (l : str) :
  is_stale l = true <->
  l = lit "Frameworks/llama_macos.xcframework,"
  \/ l = lit "Frameworks/llama_ios.xcframework,".
Proof.
  unfold is_stale, STALE. cbn [existsb].
  rewrite !orb_true_iff, !str_eqb_eq. intuition discriminate.
Qed.

Lemma no_linebreak_snoc (l : str) (c : ascii) :
  no_linebreak l -> islinebreak c = false -> no_linebreak (l ++ [c]).
Proof.
  intros Hl Hc d Hd. apply in_app_or in Hd as [Hd|[<-|[]]]; auto.
Qed.

Lemma splitlines_from_no_linebreak (n : nat) :
  forall s cur, length s <= n -> no_linebreak cur ->
                Forall no_linebreak (splitlines_from cur s).
Proof.
  induction n as [|n IH]; intros s cur Hlen Hcur.
  - destruct s; [|simpl in Hlen; lia]. simpl.
    destruct cur; constructor; auto.
  - destruct s as [|c s]; simpl.
    + destruct cur; constructor; auto.
    + simpl in Hlen. assert (Hnil : no_linebreak []) by (intros d []).
      destruct (islinebreak c) eqn:Ec.
      * destruct (Ascii.eqb c CR).
        -- destruct s as [|d s].
           ++ constructor; [assumption|]. apply IH; [simpl; lia|assumption].
           ++ destruct (Ascii.eqb d NL); constructor; try assumption;
                apply IH; try assumption; simpl in *; lia.
        -- constructor; [assumption|]. apply IH; [lia|assumption].
      * apply IH; [lia|]. now apply no_linebreak_snoc.
Qed.

Lemma splitlines_no_linebreak (s : str) : Forall no_linebreak (splitlines s).
Proof.
  apply (splitlines_from_no_linebreak (length s)); [lia|]. intros c [].
Qed.

Lemma kept_lines_no_linebreak (s : str) : Forall no_linebreak (kept_lines s).
Proof.
  unfold kept_lines. rewrite keep_loop_filter. cbn [app].
  pose proof (splitlines_no_linebreak s) as H.
  rewrite Forall_forall in H |- *. intros l Hl.
  apply filter_In in Hl as [Hl _]. now apply H.
Qed.

Lemma join_chars (sep : str) (ls : list str) (c : ascii) :
  In c (join sep ls) -> In c sep \/ exists l, In l ls /\ In c l.
Proof.
  induction ls as [|l [|l2 rest] IH]; intros H.
  - destruct H.
  - right. exists l. split; [now left|assumption].
  - change (join sep (l :: l2 :: rest)) with (l ++ sep ++ join sep (l2 :: rest)) in H.
    apply in_app_or in H as [H|H].
    + right. exists l. split; [now left|assumption].
    + apply in_app_or in H as [H|H]; [now left|].
      destruct (IH H) as [Hs|(l' & Hl' & Hc)]; [now left|].
      right. exists l'. split; [now right|assumption].
Qed.

Lemma ends_with_linebreak_app (a b : str) :
  b <> [] -> ends_with_linebreak (a ++ b) = ends_with_linebreak b.
Proof.
  intros Hb. unfold ends_with_linebreak. rewrite rev_app_distr.
  destruct (rev b) as [|c rb] eqn:E; [|reflexivity].
  exfalso. apply Hb. apply (f_equal (@rev ascii)) in E.
  now rewrite rev_involutive in E.
Qed.

Lemma ends_with_linebreak_clean (l : str) :
  no_linebreak l -> ends_with_linebreak l = false.
Proof.
  intros Hl. unfold ends_with_linebreak.
  destruct (rev l) as [|c rl] eqn:E; [reflexivity|].
  apply Hl. apply in_rev. rewrite E. now left.
Qed.

(** The joined text ends with a line break exactly when there are at least
    two lines and the last one is empty. *)
Lemma ends_with_linebreak_join (ls : list str) :
  Forall no_linebreak ls ->
  (ends_with_linebreak (join [NL] ls) = true
   <-> 2 <= length ls /\ last ls [] = []).
Proof.
  induction ls as [|l [|l2 rest] IH]; intros Hls.
  - simpl. split; [discriminate|lia].
  - cbn [join]. rewrite ends_with_linebreak_clean by now inversion Hls.
    simpl. split; [discriminate|lia].
  - assert (Hrest : Forall no_linebreak (l2 :: rest)) by now inversion Hls.
    specialize (IH Hrest).
    change (join [NL] (l :: l2 :: rest))
      with (l ++ NL :: join [NL] (l2 :: rest)).
    rewrite ends_with_linebreak_app by discriminate.
    change (last (l :: l2 :: rest) []) with (last (l2 :: rest) []).
    destruct rest as [|l3 rest].
    + cbn [join last length]. destruct l2 as [|d l2].
      * split; [intros _; split; [lia|reflexivity]|reflexivity].
      * change (NL :: d :: l2) with ([NL] ++ d :: l2).
        rewrite ends_with_linebreak_app by discriminate.
        rewrite ends_with_linebreak_clean by now inversion Hrest.
        split; [discriminate|intros [_ H]; discriminate].
    + change (NL :: join [NL] (l2 :: l3 :: rest))
        with ([NL] ++ join [NL] (l2 :: l3 :: rest)).
      rewrite ends_with_linebreak_app.
      * rewrite IH. cbn [length]. split; intros [_ H]; split; auto; lia.
      * change (join [NL] (l2 :: l3 :: rest))
          with (l2 ++ NL :: join [NL] (l3 :: rest)).
        destruct l2; discriminate.
Qed.

(** The substitution at work: the assigned path is rewritten with its
    context, the listed path is not, and a path glued to a word character is
    no match. *)
Lemma re_sub_path_attributes :
  re_sub_path LLAMA_MACOS Samples.attributes
  = Samples.line 4 "Frameworks/xcframeworks/llama_macos.xcframework = {"
    ++ Samples.line 4 "Frameworks/llama_macos.xcframework;".
Proof. apply str_eqb_eq. vm_compute. reflexivity. Qed.

Lemma re_sub_path_word_boundary :
  re_sub_path LLAMA_MACOS (lit "xFrameworks/llama_macos.xcframework = 1")
  = lit "xFrameworks/llama_macos.xcframework = 1".
Proof. apply str_eqb_eq. vm_compute. reflexivity. Qed.

(** The fuel of the scan is never used up: any two amounts above the length
    of the text give the same result. *)
Lemma sub_scan_fuel (fname : str) (f1 : nat) :
  forall (f2 : nat) (prev : option ascii) (s : str),
    length s < f1 -> length s < f2 ->
    sub_scan f1 fname prev s = sub_scan f2 fname prev s.
Proof.
  induction f1 as [|f1 IH]; intros f2 prev s H1 H2; [lia|].
  destruct f2 as [|f2]; [lia|]. cbn [sub_scan].
  destruct (path_match_at fname prev s) as [[g2 rest]|] eqn:Em.
  - apply path_match_at_Some in Em as (ws & -> & Hws & ->).
    rewrite !length_app in H1, H2. simpl in H1, H2.
    do 4 f_equal. apply IH; lia.
  - destruct s as [|c s]; [reflexivity|]. simpl in H1, H2.
    f_equal. apply IH; lia.
Qed.

(** What the whole transformation does to a text with nothing to rewrite
    and nothing to drop: it splits the text into lines and joins them. *)
Lemma rewritePaths_clean (text : str) :
  (forall k, ~ assigned_at LLAMA_MACOS (skipn k text)) ->
  (forall k, ~ assigned_at LLAMA_IOS (skipn k text)) ->
  (forall line, In line (splitlines text) -> is_stale (strip line) = false) ->
  rewritePaths text = join [NL] (splitlines text).
Proof.
  intros Hm Hi Hs. unfold rewritePaths, filter_lines, substitute.
  assert (Em : re_sub_path LLAMA_MACOS text = text).
  { apply (scoped_identity LLAMA_MACOS); [|assumption].
    apply sub_scan_scoped. lia. }
  rewrite Em.
  assert (Ei : re_sub_path LLAMA_IOS text = text).
  { apply (scoped_identity LLAMA_IOS); [|assumption].
    apply sub_scan_scoped. lia. }
  rewrite Ei. unfold kept_lines. rewrite keep_loop_filter. cbn [app].
  f_equal. induction (splitlines text) as [|l ls IH]; [reflexivity|].
  simpl. rewrite (Hs l) by now left. simpl. f_equal.
  apply IH. intros line Hin. apply Hs. now right.
Qed.

End PathFacts.

(** ** Properties of scripts/patch_xcframework_paths.py *)

Module PathClaims.
Import Py PyFacts PatchXcframeworkPaths PathFacts Samples.

(** C7: the substitution for a file name without a capital F, as both file
    names are, changes the text only by putting [xcframeworks/] into
    occurrences of the old path that are followed by optional white space and
    [=], and copies that context.  A text without such an occurrence is
    returned as it is, and an occurrence of the old path that the assignment
    context does not follow is found unchanged in the result, between the
    rewritten text before it and the rewritten text after it. *)
Theorem re_sub_path_scoped (fname text : str) :
  ~ In "F"%char fname ->
  scoped_rewrite fname text (re_sub_path fname text)
  /\ ((forall k, ~ assigned_at fname (skipn k text)) ->
      re_sub_path fname text = text)
  /\ (forall a r,
        text = a ++ (FRAMEWORKS ++ fname) ++ r -> ~ assignment_context r ->
        exists a' r',
          re_sub_path fname text = a' ++ (FRAMEWORKS ++ fname) ++ r'
          /\ scoped_rewrite fname a a' /\ scoped_rewrite fname r r').
Proof.
  intros HF.
  assert (H : scoped_rewrite fname text (re_sub_path fname text)).
  { apply sub_scan_scoped. lia. }
  split; [assumption|]. split.
  - now apply scoped_identity.
  - intros a r. now apply scoped_keeps.
Qed.

Lemma re_sub_path_scoped_witness :
  ~ In "F"%char LLAMA_MACOS
  /\ scoped_rewrite LLAMA_MACOS attributes (re_sub_path LLAMA_MACOS attributes).
Proof.
  assert (HF : ~ In "F"%char LLAMA_MACOS).
  { intros H. vm_compute in H. intuition discriminate. }
  split; [exact HF|].
  exact (proj1 (re_sub_path_scoped LLAMA_MACOS attributes HF)).
Defined.

(** C8: the line filter keeps, in their order, exactly the lines whose
    trimmed form is neither of the two stale entries; a line is deleted if
    and only if its trimmed form is one of them.  The indented stale entry
    is deleted, and the entry that only starts like it is kept. *)
Theorem line_filter_exact (text : str) :
  kept_lines text
  = filter (fun line => negb (is_stale (strip line))) (splitlines text)
  /\ (forall line,
        In line (kept_lines text) <->
        In line (splitlines text)
        /\ strip line <> lit "Frameworks/llama_macos.xcframework,"
        /\ strip line <> lit "Frameworks/llama_ios.xcframework,")
  /\ is_stale (strip (lit "  Frameworks/llama_ios.xcframework,")) = true
  /\ is_stale (strip (lit "  Frameworks/llama_ios.xcframework_extra,")) = false.
Proof.
  assert (E : kept_lines text
              = filter (fun line => negb (is_stale (strip line))) (splitlines text)).
  { unfold kept_lines. now rewrite keep_loop_filter. }
  split; [exact E|]. split; [|split; reflexivity].
  intros line. rewrite E, filter_In, negb_true_iff.
  split; intros [Hin H]; (split; [assumption|]).
  - split; intros Hs; rewrite (proj2 (is_stale_true _)) in H; auto; discriminate.
  - destruct (is_stale (strip line)) eqn:Es; [|reflexivity].
    apply is_stale_true in Es. tauto.
Qed.

(** C9 as stated fails: a text that ends with an empty line gives an output
    that ends with a line terminator. *)
Lemma rewritePaths_can_end_with_newline :
  ~ (forall text : str,
        ~ In CR (rewritePaths text)
        /\ ends_with_linebreak (rewritePaths text) = false).
Proof.
  intros H. destruct (H clean_file_blank) as [_ He].
  vm_compute in He. discriminate He.
Qed.

(** C9, amended: the output of [rewritePaths] has no carriage return, and
    the only character at which a line ends that it can have is the newline
    that joins two kept lines; it ends with a line terminator exactly when at
    least two lines are kept and the last kept line is empty. *)
Theorem rewritePaths_line_breaks (text : str) :
  ~ In CR (rewritePaths text)
  /\ (forall c, In c (rewritePaths text) -> islinebreak c = true -> c = NL)
  /\ (ends_with_linebreak (rewritePaths text) = true
      <-> 2 <= length (kept_lines (substitute text))
          /\ last (kept_lines (substitute text)) [] = []).
Proof.
  pose proof (kept_lines_no_linebreak (substitute text)) as Hclean.
  assert (Hnl : forall c, In c (rewritePaths text) -> islinebreak c = true -> c = NL).
  { intros c Hc Hb. apply join_chars in Hc as [[<-|[]]|(l & Hl & Hc)].
    - reflexivity.
    - rewrite Forall_forall in Hclean. rewrite (Hclean l Hl c Hc) in Hb.
      discriminate. }
  split; [|split; [exact Hnl|]].
  - intros Hcr. specialize (Hnl CR Hcr eq_refl). discriminate Hnl.
  - now apply ends_with_linebreak_join.
Qed.

(** C1: [clean_file] has neither old path and no stale line, and the text
    [rewritePaths] returns for it is not the input: the newline that ends
    the file is gone, and the driver writes the file and reports a patch. *)
Theorem rewritePaths_drops_final_newline :
  contains (FRAMEWORKS ++ LLAMA_MACOS) clean_file = false
  /\ contains (FRAMEWORKS ++ LLAMA_IOS) clean_file = false
  /\ existsb (fun line => is_stale (strip line)) (splitlines clean_file) = false
  /\ rewritePaths clean_file = clean_file_stripped
  /\ rewritePaths clean_file <> clean_file
  /\ written (main clean_file) = Some clean_file_stripped.
Proof.
  split; [reflexivity|]. split; [reflexivity|]. split; [reflexivity|].
  split; [apply str_eqb_eq; reflexivity|].
  split; [apply str_eqb_neq; reflexivity|].
  vm_compute. reflexivity.
Qed.

(** C5: a second run changes the text again.  For [clean_file_blank] each
    run takes one line terminator from the end; for [stale_between] the
    first run drops a stale line, which brings an old path in front of an
    equals sign, and the second run rewrites that path. *)
Theorem rewritePaths_second_run_changes :
  rewritePaths clean_file_blank = clean_file
  /\ rewritePaths (rewritePaths clean_file_blank) = clean_file_stripped
  /\ rewritePaths (rewritePaths clean_file_blank) <> rewritePaths clean_file_blank
  /\ rewritePaths (rewritePaths stale_between) <> rewritePaths stale_between.
Proof.
  split; [apply str_eqb_eq; reflexivity|].
  split; [apply str_eqb_eq; reflexivity|].
  split; apply str_eqb_neq; reflexivity.
Qed.

End PathClaims.


(** ** Further properties of [patch_block] and of the driver *)

Module FixMore.
Import Py PyFacts FixBuildSettings FixFacts Samples.

Lemma settings_region_no_head (text config_id : str) :
  find text (start_pat_head config_id) 0 = None ->
  settings_region text config_id = None.
Proof.
  intros H. unfold settings_region. now rewrite start_pat_search_find, H.
Qed.

Lemma settings_region_no_marker (text config_id : str) :
  find text BS_OPEN 0 = None -> settings_region text config_id = None.
Proof.
  intros H. unfold settings_region.
  destruct (start_pat_search config_id text) as [[b e]|]; [|reflexivity].
  replace (find text BS_OPEN e) with (@None nat); [reflexivity|].
  symmetry. apply find_None. intros k Hk.
  apply (proj1 (find_None _ _ _) H). lia.
Qed.

Lemma contains_false (sub s : str) :
  contains sub s = false -> find s sub 0 = None.
Proof.
  unfold contains. destruct (find s sub 0); [discriminate|reflexivity].
Qed.

Lemma inserted_nil (sw ip : bool) (c : str) :
  inserted sw ip c = [] <->
  sw && negb (contains SWIFT_KEY c) = false
  /\ ip && negb (contains INFOPLIST_KEY c) = false.
Proof.
  unfold inserted, infoplist_insert.
  rewrite contains_infoplist_swift_insert. unfold swift_insert.
  destruct (sw && negb (contains SWIFT_KEY c));
    destruct (ip && negb (contains INFOPLIST_KEY c)); cbn [app];
    split; try discriminate; try tauto; intros [H1 H2]; discriminate.
Qed.

(** X1: an identifier that does not occur in the text, in the form
    newline, two tabs, identifier, [ /* ], leaves the text as it is. *)
Theorem patch_block_absent_id (text config_id : str) (sw ip : bool) :
  contains (start_pat_head config_id) text = false ->
  patch_block text config_id sw ip = text.
Proof.
  intros H. apply patch_block_not_located, settings_region_no_head.
  now apply contains_false.
Qed.

Lemma patch_block_absent_id_witness :
  contains (start_pat_head ID_PROJECT_DEBUG) release_block = false
  /\ patch_block release_block ID_PROJECT_DEBUG true true = release_block.
Proof.
  split; [reflexivity|].
  apply (patch_block_absent_id release_block ID_PROJECT_DEBUG true true).
  reflexivity.
Defined.

(** X2: with neither setting requested [patch_block] returns every text
    unchanged, also when it finds the region: the three slices it puts
    together again are the whole text. *)
Theorem patch_block_nothing_requested (text config_id : str) :
  patch_block text config_id false false = text.
Proof.
  destruct (settings_region text config_id) as [[cs be]|] eqn:Hreg.
  - destruct (patched_region text config_id false false cs be Hreg)
      as (_ & Hcut & _).
    rewrite Hcut. apply firstn_skipn.
  - now apply patch_block_not_located.
Qed.

(** X3: when the region is found, each requested key occurs in the content
    of the region of the patched text. *)
Theorem patch_block_ensures_keys (text config_id : str) (sw ip : bool) (cs be : nat) :
  settings_region text config_id = Some (cs, be) ->
  exists be',
    settings_region (patch_block text config_id sw ip) config_id = Some (cs, be')
    /\ (sw = true ->
        contains SWIFT_KEY (slice (patch_block text config_id sw ip) cs be') = true)
    /\ (ip = true ->
        contains INFOPLIST_KEY (slice (patch_block text config_id sw ip) cs be') = true).
Proof.
  intros Hreg.
  destruct (patched_region text config_id sw ip cs be Hreg)
    as (_ & _ & _ & Hreg' & Hslice).
  exists (be + length (inserted sw ip (slice text cs be))).
  split; [assumption|]. rewrite Hslice. split; intros ->.
  - pose proof (swift_check_after true ip (slice text cs be)) as H.
    cbn [andb] in H. now apply negb_false_iff in H.
  - pose proof (infoplist_check_after sw true (slice text cs be)) as H.
    cbn [andb] in H. now apply negb_false_iff in H.
Qed.

Lemma patch_block_ensures_keys_witness :
  exists be',
    settings_region (patch_block debug_block ID_PROJECT_DEBUG true true)
                    ID_PROJECT_DEBUG = Some (135, be')
    /\ contains SWIFT_KEY
         (slice (patch_block debug_block ID_PROJECT_DEBUG true true) 135 be') = true
    /\ contains INFOPLIST_KEY
         (slice (patch_block debug_block ID_PROJECT_DEBUG true true) 135 be') = true.
Proof.
  destruct (patch_block_ensures_keys debug_block ID_PROJECT_DEBUG true true
              135 157 eq_refl) as (be' & Hreg & Hs & Hi).
  exists be'. split; [exact Hreg|]. split; [exact (Hs eq_refl)|exact (Hi eq_refl)].
Defined.

(** X4: when the region is found and lacks a requested key, the line of
    that key, with a newline before it, is put directly in front of the
    region terminator, and the key then occurs exactly once in the region:
    the text up to [bs_end] and the text from [bs_end] on are unchanged. *)
Theorem patch_block_inserts_swift_line (text config_id : str) (cs be : nat) :
  settings_region text config_id = Some (cs, be) ->
  contains SWIFT_KEY (slice text cs be) = false ->
  patch_block text config_id true false
  = slice_to text be ++ [NL] ++ SWIFT_VERSION_LINE ++ slice_from text be
  /\ occurrences SWIFT_KEY
       (slice (patch_block text config_id true false) cs
              (be + length ([NL] ++ SWIFT_VERSION_LINE))) = 1.
Proof.
  intros Hreg Habs.
  destruct (patched_region text config_id true false cs be Hreg)
    as (_ & Hcut & _ & _ & Hslice).
  assert (Hins : inserted true false (slice text cs be) = [NL] ++ SWIFT_VERSION_LINE).
  { unfold inserted, swift_insert, infoplist_insert.
    rewrite Habs. cbn [andb negb]. now rewrite app_nil_r. }
  rewrite Hins in Hcut, Hslice. split.
  - rewrite Hcut, <- app_assoc. reflexivity.
  - rewrite Hslice, <- Hins, occurrences_swift_after, Habs. cbn [andb negb].
    rewrite contains_occurrences in Habs.
    apply negb_false_iff, Nat.eqb_eq in Habs. lia.
Qed.

Lemma patch_block_inserts_swift_line_witness :
  patch_block debug_block ID_PROJECT_DEBUG true false
  = slice_to debug_block 157 ++ [NL] ++ SWIFT_VERSION_LINE
    ++ slice_from debug_block 157.
Proof.
  exact (proj1 (patch_block_inserts_swift_line debug_block ID_PROJECT_DEBUG
                  135 157 eq_refl eq_refl)).
Defined.

(** X5: [patch_block] returns a text other than its input exactly when it
    finds the region and a requested key does not occur in the content of
    the region. *)
Theorem patch_block_changes_iff (text config_id : str) (sw ip : bool) :
  patch_block text config_id sw ip <> text <->
  exists cs be,
    settings_region text config_id = Some (cs, be)
    /\ (sw && negb (contains SWIFT_KEY (slice text cs be)) = true
        \/ ip && negb (contains INFOPLIST_KEY (slice text cs be)) = true).
Proof.
  destruct (settings_region text config_id) as [[cs be]|] eqn:Hreg.
  - destruct (patched_region text config_id sw ip cs be Hreg)
      as (Hle & Hcut & _).
    pose proof (inserted_nil sw ip (slice text cs be)) as Hnil.
    split.
    + intros Hne. exists cs, be. split; [reflexivity|].
      destruct (sw && negb (contains SWIFT_KEY (slice text cs be)));
        [now left|].
      destruct (ip && negb (contains INFOPLIST_KEY (slice text cs be)));
        [now right|].
      exfalso. apply Hne. rewrite Hcut, (proj2 Hnil) by auto.
      apply firstn_skipn.
    + intros (cs' & be' & [= <- <-] & Hor) Heq.
      apply (f_equal (@length ascii)) in Heq.
      rewrite Hcut, !length_app, length_firstn, length_skipn in Heq.
      assert (Hz : inserted sw ip (slice text cs be) = []).
      { apply length_zero_iff_nil. lia. }
      apply Hnil in Hz as [H1 H2]. rewrite H1, H2 in Hor.
      destruct Hor; discriminate.
  - rewrite patch_block_not_located by assumption.
    split; [congruence|]. intros (cs & be & H & _). discriminate.
Qed.

(** *** Inserting text in front of a region terminator

    [X ++ Y] is a text and [X ++ I ++ Y] the same text with [I] put in at
    index [length X].  Both [Y] and [I ++ Y] start with a newline, and the
    pattern [sub] has no newline after its first character and does not
    start inside [I]. *)

Section Insertion.

Variables (X I Y sub : str).
Hypothesis Hsub : exists h tl, sub = h :: tl /\ ~ In NL tl.
Hypothesis HY : exists y, Y = NL :: y.
Hypothesis HI : exists w, I ++ Y = NL :: w.
Hypothesis Hdead :
  forall i, i < length I -> startswith (skipn i (I ++ Y)) sub = false.

Lemma occ_before (k : nat) :
  k < length X ->
  startswith (skipn k (X ++ I ++ Y)) sub = startswith (skipn k (X ++ Y)) sub.
Proof.
  intros Hk. rewrite !skipn_app_le by lia.
  destruct (skipn k X) as [|c x'] eqn:Ex.
  { apply (f_equal (@length ascii)) in Ex.
    rewrite length_skipn in Ex. simpl in Ex. lia. }
  destruct Hsub as (h & tl & -> & Htl).
  destruct HY as (y & ->). destruct HI as (w & ->).
  rewrite <- !app_comm_cons, !startswith_cons. f_equal.
  now apply startswith_stop.
Qed.

Lemma occ_inside (k : nat) :
  length X <= k < length X + length I ->
  startswith (skipn k (X ++ I ++ Y)) sub = false.
Proof.
  intros Hk. rewrite skipn_app_ge by lia. apply Hdead. lia.
Qed.

Lemma occ_after (k : nat) :
  length X <= k ->
  startswith (skipn (k + length I) (X ++ I ++ Y)) sub
  = startswith (skipn k (X ++ Y)) sub.
Proof.
  intros Hk. rewrite !skipn_app_ge by lia. do 2 f_equal. lia.
Qed.

(** A search that starts at or before the insertion point finds the same
    occurrence, moved by the length of [I] when it lies behind that point. *)
Lemma find_insert_lo (s : nat) :
  s <= length X ->
  find (X ++ I ++ Y) sub s
  = option_map (fun j => if j <? length X then j else j + length I)
               (find (X ++ Y) sub s).
Proof.
  intros Hs. destruct (find (X ++ Y) sub s) as [j|] eqn:E; cbn [option_map].
  - apply find_Some in E as (Hj & Hat & Hbefore).
    rewrite length_app in Hj. apply find_Some. rewrite !length_app.
    destruct (j <? length X) eqn:Ej;
      [apply Nat.ltb_lt in Ej|apply Nat.ltb_ge in Ej].
    + repeat split; try lia.
      * now rewrite occ_before.
      * intros k Hk. rewrite occ_before by lia. apply Hbefore. lia.
    + repeat split; try lia.
      * now rewrite occ_after.
      * intros k Hk. destruct (Nat.lt_ge_cases k (length X)) as [H1|H1].
        -- rewrite occ_before by lia. apply Hbefore. lia.
        -- destruct (Nat.lt_ge_cases k (length X + length I)) as [H2|H2].
           ++ apply occ_inside. lia.
           ++ replace k with ((k - length I) + length I) by lia.
              rewrite occ_after by lia. apply Hbefore. lia.
  - apply find_None. rewrite !length_app. intros k Hk.
    pose proof (proj1 (find_None _ _ _) E) as Hnone.
    rewrite length_app in Hnone.
    destruct (Nat.lt_ge_cases k (length X)) as [H1|H1].
    + rewrite occ_before by lia. apply Hnone. lia.
    + destruct (Nat.lt_ge_cases k (length X + length I)) as [H2|H2].
      * apply occ_inside. lia.
      * replace k with ((k - length I) + length I) by lia.
        rewrite occ_after by lia. apply Hnone. lia.
Qed.

(** A search that starts behind the insertion point is moved as a whole. *)
Lemma find_insert_hi (s : nat) :
  length X <= s ->
  find (X ++ I ++ Y) sub (s + length I)
  = option_map (fun j => j + length I) (find (X ++ Y) sub s).
Proof.
  intros Hs. destruct (find (X ++ Y) sub s) as [j|] eqn:E; cbn [option_map].
  - apply find_Some in E as (Hj & Hat & Hbefore).
    rewrite length_app in Hj. apply find_Some. rewrite !length_app.
    repeat split; try lia.
    + now rewrite occ_after by lia.
    + intros k Hk. replace k with ((k - length I) + length I) by lia.
      rewrite occ_after by lia. apply Hbefore. lia.
  - apply find_None. rewrite !length_app. intros k Hk.
    pose proof (proj1 (find_None _ _ _) E) as Hnone.
    rewrite length_app in Hnone.
    replace k with ((k - length I) + length I) by lia.
    rewrite occ_after by lia. apply Hnone. lia.
Qed.

(** A search that starts inside [I] goes on behind it. *)
Lemma find_insert_mid (s : nat) :
  length X <= s <= length X + length I ->
  find (X ++ I ++ Y) sub s = find (X ++ I ++ Y) sub (length X + length I).
Proof.
  intros Hs.
  destruct (find (X ++ I ++ Y) sub (length X + length I)) as [j|] eqn:E.
  - apply find_Some in E as (Hj & Hat & Hbefore).
    apply find_Some. repeat split; try lia; try assumption.
    intros k Hk. destruct (Nat.lt_ge_cases k (length X + length I)).
    + apply occ_inside. lia.
    + apply Hbefore. lia.
  - apply find_None. intros k Hk.
    pose proof (proj1 (find_None _ _ _) E) as Hnone.
    destruct (Nat.lt_ge_cases k (length X + length I)).
    + apply occ_inside. lia.
    + apply Hnone. lia.
Qed.

End Insertion.

(** An occurrence that starts before a newline does not run over it. *)
Lemma no_straddle (x y : str) (h : ascii) (tl : str) (k : nat) :
  ~ In NL tl -> k < length x ->
  startswith (skipn k (x ++ NL :: y)) (h :: tl) = true ->
  k + length (h :: tl) <= length x.
Proof.
  intros Htl Hk H. rewrite skipn_app_le in H by lia.
  destruct (skipn k x) as [|c x'] eqn:Ex.
  { apply (f_equal (@length ascii)) in Ex.
    rewrite length_skipn in Ex. simpl in Ex. lia. }
  rewrite <- app_comm_cons, startswith_cons in H.
  rewrite (startswith_stop_nil NL tl x' y Htl) in H.
  rewrite <- startswith_cons in H. apply startswith_length in H.
  rewrite <- Ex, length_skipn in H. lia.
Qed.

Lemma find_skip_one (s sub : str) (k : nat) :
  k < length s -> startswith (skipn k s) sub = false ->
  find s sub k = find s sub (S k).
Proof.
  intros Hk Hocc. unfold find.
  replace (k <=? length s) with true by (symmetry; apply Nat.leb_le; lia).
  replace (S k <=? length s) with true by (symmetry; apply Nat.leb_le; lia).
  destruct (skipn k s) as [|c rest] eqn:E.
  { apply (f_equal (@length ascii)) in E.
    rewrite length_skipn in E. simpl in E. lia. }
  cbn [find_tail]. rewrite Hocc.
  replace (skipn (S k) s) with rest; [reflexivity|].
  change (S k) with (1 + k). rewrite <- skipn_skipn, E. reflexivity.
Qed.

Section InsertionStep.

Variables (X I Y sub : str).
Hypothesis Hsub : exists h tl, sub = h :: tl /\ ~ In NL tl.
Hypothesis HY : exists y, Y = NL :: y.
Hypothesis HI : exists w, I ++ Y = NL :: w.
Hypothesis Hdead :
  forall i, i < length I -> startswith (skipn i (I ++ Y)) sub = false.

(** One step of the chain of searches: the search in the longer text
    starts where the one before it ended, moved if that lies behind the
    insertion point, and it finds the same occurrence, moved likewise. *)
Lemma find_insert_step (a d : nat) :
  (a < length X ->
   a + d <= length X
   \/ (a + d = S (length X)
       /\ startswith (skipn (length X) (X ++ Y)) sub = false)) ->
  find (X ++ I ++ Y) sub ((if a <? length X then a else a + length I) + d)
  = option_map (fun j => if j <? length X then j else j + length I)
               (find (X ++ Y) sub (a + d)).
Proof.
  intros Ha.
  assert (Hhi : forall s, length X <= s ->
            find (X ++ I ++ Y) sub (s + length I)
            = option_map (fun j => if j <? length X then j else j + length I)
                         (find (X ++ Y) sub s)).
  { intros s Hs. rewrite (find_insert_hi X I Y sub s Hs).
    destruct (find (X ++ Y) sub s) as [j|] eqn:E; [|reflexivity].
    apply find_Some in E as (Hj & _). cbn [option_map].
    replace (j <? length X) with false; [reflexivity|].
    symmetry. apply Nat.ltb_ge. lia. }
  destruct (a <? length X) eqn:Ea;
    [apply Nat.ltb_lt in Ea|apply Nat.ltb_ge in Ea].
  - destruct (Ha Ea) as [Hle|[Heq Hn]].
    + now apply find_insert_lo.
    + rewrite Heq. destruct HY as (y & Ey).
      assert (Hlen : length X < length (X ++ Y)).
      { rewrite length_app, Ey. simpl. lia. }
      rewrite <- (find_skip_one (X ++ Y) sub (length X) Hlen Hn).
      rewrite <- (Hhi (length X)) by lia.
      destruct (Nat.eq_dec (length I) 0) as [Em|Em].
      * rewrite Em, Nat.add_0_r.
        apply length_zero_iff_nil in Em. rewrite Em. cbn [app].
        symmetry. now apply find_skip_one.
      * apply (find_insert_mid X I Y sub Hdead). lia.
  - replace (a + length I + d) with ((a + d) + length I) by lia.
    apply Hhi. lia.
Qed.

End InsertionStep.

(** *** The patterns of [patch_block] and what it inserts *)

Lemma startswith_app_split (s a b : str) :
  startswith s (a ++ b) = startswith s a && startswith (skipn (length a) s) b.
Proof.
  revert s; induction a as [|x a IH]; intros s; [reflexivity|].
  destruct s as [|c s]; [reflexivity|].
  cbn [app length skipn]. rewrite !startswith_cons, IH.
  now rewrite andb_assoc.
Qed.

(** Where newline, tab, tab starts inside an insertion, a third tab
    follows. *)
Lemma inserted_tabs (sw ip : bool) (c r : str) (i : nat) :
  i < length (inserted sw ip c) ->
  startswith (skipn i (inserted sw ip c ++ BS_CLOSE ++ r)) [NL; TAB; TAB] = true ->
  startswith (skipn (3 + i) (inserted sw ip c ++ BS_CLOSE ++ r)) [TAB] = true.
Proof.
  assert (H : forall ins,
             forallb (fun i =>
                        implb (startswith (skipn i (ins ++ BS_CLOSE ++ r)) [NL; TAB; TAB])
                              (startswith (skipn (3 + i) (ins ++ BS_CLOSE ++ r)) [TAB]))
                     (seq 0 (length ins)) = true ->
             forall i, i < length ins ->
               startswith (skipn i (ins ++ BS_CLOSE ++ r)) [NL; TAB; TAB] = true ->
               startswith (skipn (3 + i) (ins ++ BS_CLOSE ++ r)) [TAB] = true).
  { intros ins Hall j Hj Hs. rewrite forallb_forall in Hall.
    specialize (Hall j). rewrite in_seq, Hs in Hall. apply Hall. lia. }
  revert i.
  destruct (inserted_cases sw ip c) as [E|[E|[E|E]]]; rewrite E;
    apply H; reflexivity.
Qed.

Lemma head_shape (config_id : str) :
  plain_id config_id ->
  exists h tl, start_pat_head config_id = h :: tl /\ ~ In NL tl.
Proof.
  intros [Hnl _]. exists NL, ([TAB; TAB] ++ config_id ++ lit " /* ").
  split; [reflexivity|]. intros Hin.
  apply in_app_or in Hin as [Hin|Hin].
  - vm_compute in Hin. intuition discriminate.
  - apply in_app_or in Hin as [Hin|Hin]; [now apply Hnl|].
    vm_compute in Hin. intuition discriminate.
Qed.

Lemma head_dead (config_id : str) (sw ip : bool) (c r : str) (i : nat) :
  plain_id config_id ->
  i < length (inserted sw ip c) ->
  startswith (skipn i (inserted sw ip c ++ BS_CLOSE ++ r))
             (start_pat_head config_id) = false.
Proof.
  intros [_ Htab] Hi.
  change (start_pat_head config_id)
    with ([NL; TAB; TAB] ++ (config_id ++ lit " /* ")).
  rewrite startswith_app_split.
  destruct (startswith (skipn i (inserted sw ip c ++ BS_CLOSE ++ r)) [NL; TAB; TAB])
    eqn:E; [|reflexivity].
  apply inserted_tabs in E; [|assumption].
  rewrite skipn_skipn. cbn [length andb].
  destruct (skipn (3 + i) (inserted sw ip c ++ BS_CLOSE ++ r)) as [|x s];
    [discriminate|].
  rewrite startswith_cons, andb_true_r in E. apply Ascii.eqb_eq in E. subst x.
  destruct config_id as [|y config_id]; [reflexivity|].
  cbn [app]. rewrite startswith_cons.
  replace (Ascii.eqb y TAB) with false; [reflexivity|].
  symmetry. apply Ascii.eqb_neq. intros ->. now apply Htab.
Qed.

Lemma tail_dead (sw ip : bool) (c r : str) (i : nat) :
  i < length (inserted sw ip c) ->
  startswith (skipn i (inserted sw ip c ++ BS_CLOSE ++ r)) start_pat_tail = false.
Proof.
  revert i.
  destruct (inserted_cases sw ip c) as [E|[E|[E|E]]]; rewrite E;
    apply no_start_inside; reflexivity.
Qed.

Lemma open_dead (sw ip : bool) (c r : str) (i : nat) :
  i < length (inserted sw ip c) ->
  startswith (skipn i (inserted sw ip c ++ BS_CLOSE ++ r)) BS_OPEN = false.
Proof.
  revert i.
  destruct (inserted_cases sw ip c) as [E|[E|[E|E]]]; rewrite E;
    apply no_start_inside; reflexivity.
Qed.

Lemma tail_shape : exists h tl, start_pat_tail = h :: tl /\ ~ In NL tl.
Proof.
  eexists _, _. split; [reflexivity|].
  intros H. vm_compute in H. intuition discriminate.
Qed.

Lemma open_shape : exists h tl, BS_OPEN = h :: tl /\ ~ In NL tl.
Proof.
  eexists _, _. split; [reflexivity|].
  intros H. vm_compute in H. intuition discriminate.
Qed.

Lemma close_shape : exists h tl, BS_CLOSE = h :: tl /\ ~ In NL tl.
Proof.
  eexists _, _. split; [reflexivity|].
  intros H. vm_compute in H. intuition discriminate.
Qed.

(** *** The region of an identifier after an insertion elsewhere *)

Lemma settings_region_insert (config_id X r : str) (sw ip : bool) (c : str) :
  plain_id config_id ->
  let I := inserted sw ip c in
  let Y := BS_CLOSE ++ r in
  (settings_region (X ++ Y) config_id = None
   /\ settings_region (X ++ I ++ Y) config_id = None)
  \/ exists bs be,
       located config_id (X ++ Y) bs be
       /\ settings_region (X ++ I ++ Y) config_id
          = Some ((if bs <? length X then bs else bs + length I) + length BS_OPEN,
                  if be <? length X then be else be + length I).
Proof.
  intros Hid I Y.
  assert (HY : exists y, Y = NL :: y) by (eexists; reflexivity).
  assert (HI : exists w, I ++ Y = NL :: w) by apply inserted_head.
  assert (Hn : forall k, k < length X -> forall h tl,
             ~ In NL tl ->
             startswith (skipn k (X ++ Y)) (h :: tl) = true ->
             k + length (h :: tl) <= length X).
  { intros k Hk h tl Htl Hs. destruct HY as (y & Ey). rewrite Ey in Hs.
    now apply (no_straddle X y h tl k). }
  unfold settings_region. rewrite !start_pat_search_find.
  (* the head *)
  pose proof (find_insert_lo X I Y (start_pat_head config_id)
                (head_shape config_id Hid) HY HI
                (fun i => head_dead config_id sw ip c r i Hid) 0 (Nat.le_0_l _))
    as E1.
  rewrite E1.
  destruct (find (X ++ Y) (start_pat_head config_id) 0) as [p|] eqn:Fp;
    cbn [option_map]; [|now left].
  (* the tail *)
  assert (E2 : find (X ++ I ++ Y) start_pat_tail
                 ((if p <? length X then p else p + length I)
                  + (length (start_pat_head config_id) + 1))
               = option_map (fun j => if j <? length X then j else j + length I)
                   (find (X ++ Y) start_pat_tail
                      (p + (length (start_pat_head config_id) + 1)))).
  { apply (find_insert_step X I Y start_pat_tail tail_shape HY HI
             (fun i => tail_dead sw ip c r i)).
    intros Hp. apply find_Some in Fp as (_ & Hat & _).
    destruct (head_shape config_id Hid) as (h & tl & Eh & Htl).
    rewrite Eh in Hat |- *. specialize (Hn p Hp h tl Htl Hat).
    destruct (Nat.eq_dec (p + length (h :: tl)) (length X)) as [Heq|Hne].
    - right. split; [lia|].
      rewrite skipn_app_ge, Nat.sub_diag by lia. reflexivity.
    - left. lia. }
  rewrite <- !Nat.add_assoc, E2.
  destruct (find (X ++ Y) start_pat_tail
              (p + (length (start_pat_head config_id) + 1))) as [q|] eqn:Fq;
    cbn [option_map]; [|now left].
  (* the marker *)
  assert (E3 : find (X ++ I ++ Y) BS_OPEN
                 ((if q <? length X then q else q + length I)
                  + length start_pat_tail)
               = option_map (fun j => if j <? length X then j else j + length I)
                   (find (X ++ Y) BS_OPEN (q + length start_pat_tail))).
  { apply (find_insert_step X I Y BS_OPEN open_shape HY HI
             (fun i => open_dead sw ip c r i)).
    intros Hq. left. pose proof Fq as Fq'.
    apply find_Some in Fq' as (_ & Hat & _).
    destruct tail_shape as (h & tl & Eh & Htl).
    rewrite Eh in Hat |- *. apply (Hn q Hq h tl Htl Hat). }
  rewrite E3.
  destruct (find (X ++ Y) BS_OPEN (q + length start_pat_tail)) as [bs|] eqn:Fb;
    cbn [option_map]; [|now left].
  (* the terminator *)
  assert (E4 : find (X ++ I ++ Y) BS_CLOSE
                 ((if bs <? length X then bs else bs + length I) + 0)
               = option_map (fun j => if j <? length X then j else j + length I)
                   (find (X ++ Y) BS_CLOSE (bs + 0))).
  { apply (find_insert_step X I Y BS_CLOSE close_shape HY HI
             (fun i => inserted_clear sw ip c r i)).
    intros Hb. left. lia. }
  rewrite !Nat.add_0_r in E4. rewrite E4.
  destruct (find (X ++ Y) BS_CLOSE bs) as [be|] eqn:Fe;
    cbn [option_map]; [|now left].
  right. exists bs, be. split; [|reflexivity].
  exists p, q. rewrite <- Nat.add_assoc. auto.
Qed.

(** The content of the region after an insertion elsewhere is the content
    before it, followed by the insertion when this is the region that
    received it. *)
Lemma region_content_insert (config_id X I r : str) (bs be : nat) :
  located config_id (X ++ BS_CLOSE ++ r) bs be ->
  exists J,
    slice (X ++ I ++ BS_CLOSE ++ r)
          ((if bs <? length X then bs else bs + length I) + length BS_OPEN)
          (if be <? length X then be else be + length I)
    = slice (X ++ BS_CLOSE ++ r) (bs + length BS_OPEN) be ++ J.
Proof.
  intros Hloc.
  destruct (located_bounds _ _ _ _ Hloc) as (Hcs & Hbe & _).
  destruct Hloc as (p & q & _ & _ & Ho & Hc).
  apply find_Some in Ho as (_ & Hopen & _).
  apply find_Some in Hc as (Hr & _ & Hnone).
  unfold slice.
  destruct (bs <? length X) eqn:Eb;
    [apply Nat.ltb_lt in Eb|apply Nat.ltb_ge in Eb].
  - assert (Hcsn : bs + length BS_OPEN <= length X).
    { destruct open_shape as (h & tl & Eh & Htl). rewrite Eh in Hopen |- *.
      change (BS_CLOSE ++ r) with (NL :: ([TAB; TAB; TAB] ++ lit "};") ++ r)
        in Hopen.
      exact (no_straddle X (([TAB; TAB; TAB] ++ lit "};") ++ r) h tl bs
               Htl Eb Hopen). }
    assert (Hben : be <= length X).
    { destruct (Nat.le_gt_cases be (length X)) as [|Hgt]; [assumption|].
      specialize (Hnone (length X) ltac:(lia)).
      rewrite skipn_app_ge, Nat.sub_diag in Hnone by lia.
      cbn [skipn] in Hnone. now rewrite startswith_app in Hnone. }
    rewrite !skipn_app_le by lia.
    destruct (be <? length X) eqn:Ee;
      [apply Nat.ltb_lt in Ee|apply Nat.ltb_ge in Ee].
    + exists []. rewrite app_nil_r, !firstn_app.
      rewrite length_skipn.
      replace (be - (bs + length BS_OPEN) - (length X - (bs + length BS_OPEN)))
        with 0 by lia.
      reflexivity.
    + assert (be = length X) by lia. subst be. exists I.
      rewrite (app_assoc (skipn _ X) I).
      rewrite (firstn_exact (skipn (bs + length BS_OPEN) X ++ I)).
      * rewrite (firstn_exact (skipn (bs + length BS_OPEN) X)); [reflexivity|].
        rewrite length_skipn. lia.
      * rewrite length_app, length_skipn. lia.
  - exists []. rewrite app_nil_r.
    replace (be <? length X) with false by (symmetry; apply Nat.ltb_ge; lia).
    rewrite (skipn_app_ge X (I ++ BS_CLOSE ++ r)) by lia.
    rewrite (skipn_app_ge I) by lia.
    rewrite (skipn_app_ge X (BS_CLOSE ++ r)) by lia.
    f_equal; [lia|]. f_equal. lia.
Qed.

Lemma patch_block_fixed_iff (text config_id : str) (sw ip : bool) (cs be : nat) :
  settings_region text config_id = Some (cs, be) ->
  (patch_block text config_id sw ip = text
   <-> inserted sw ip (slice text cs be) = []).
Proof.
  intros Hreg.
  destruct (patched_region text config_id sw ip cs be Hreg) as (Hle & Hcut & _).
  split.
  - intros Heq. apply (f_equal (@length ascii)) in Heq.
    rewrite Hcut, !length_app, length_firstn, length_skipn in Heq.
    apply length_zero_iff_nil. lia.
  - intros Hnil. rewrite Hcut, Hnil. apply firstn_skipn.
Qed.

Lemma inserted_nil_app (sw ip : bool) (c J : str) :
  inserted sw ip c = [] -> inserted sw ip (c ++ J) = [].
Proof.
  rewrite !inserted_nil. intros [H1 H2]. split.
  - destruct sw; [|reflexivity]. cbn [andb] in *.
    apply negb_false_iff in H1. apply negb_false_iff. now apply contains_app_l.
  - destruct ip; [|reflexivity]. cbn [andb] in *.
    apply negb_false_iff in H2. apply negb_false_iff. now apply contains_app_l.
Qed.

(** An entry with nothing to do has nothing to do after any other call of
    [patch_block]. *)
Lemma fixed_after_other_patch (text config_id other : str) (sw ip sw' ip' : bool) :
  plain_id config_id ->
  patch_block text config_id sw ip = text ->
  patch_block (patch_block text other sw' ip') config_id sw ip
  = patch_block text other sw' ip'.
Proof.
  intros Hid Hfix.
  destruct (settings_region text other) as [[cs' be']|] eqn:Hother.
  2:{ now rewrite !(patch_block_not_located text other sw' ip' Hother). }
  destruct (patched_region text other sw' ip' cs' be' Hother)
    as (Hle & Hcut & Hat & _).
  apply startswith_true in Hat as [r Hr].
  assert (Htext : text = firstn be' text ++ BS_CLOSE ++ r).
  { rewrite <- Hr. symmetry. apply firstn_skipn. }
  assert (Hlen : length (firstn be' text) = be') by (rewrite length_firstn; lia).
  rewrite Hcut, Hr.
  destruct (settings_region_insert config_id (firstn be' text) r sw' ip'
              (slice text cs' be') Hid)
    as [[_ Hnone]|(bs & be & Hloc & Hreg)].
  - now apply patch_block_not_located.
  - apply (patch_block_fixed_iff _ _ sw ip _ _ Hreg).
    destruct (region_content_insert config_id (firstn be' text)
                (inserted sw' ip' (slice text cs' be')) r bs be Hloc) as [J ->].
    apply inserted_nil_app. rewrite <- Htext.
    apply (patch_block_fixed_iff text config_id sw ip).
    + apply settings_region_Some. exists bs. split; [reflexivity|].
      now rewrite Htext.
    + assumption.
Qed.

Lemma patch_block_twice (text config_id : str) (sw ip : bool) :
  patch_block (patch_block text config_id sw ip) config_id sw ip
  = patch_block text config_id sw ip.
Proof.
  destruct (settings_region text config_id) as [[cs be]|] eqn:Hreg.
  - destruct (patched_region text config_id sw ip cs be Hreg)
      as (_ & _ & _ & Hreg' & Hslice).
    apply (patch_block_fixed_iff _ _ sw ip _ _ Hreg').
    rewrite Hslice. apply inserted_again.
  - now rewrite !(patch_block_not_located text config_id sw ip Hreg).
Qed.

(** *** The loop over a table of entries *)

Lemma fold_patch_keeps_fixed (es : list (str * meta)) (e : str * meta) :
  plain_id (fst e) ->
  forall data, patch_entry data e = data ->
               patch_entry (fold_left patch_entry es data) e
               = fold_left patch_entry es data.
Proof.
  intros Hid. induction es as [|e' es IH]; intros data Hfix; [assumption|].
  cbn [fold_left]. apply IH. now apply fixed_after_other_patch.
Qed.

Lemma fold_patch_all_fixed (es : list (str * meta)) :
  Forall (fun e => plain_id (fst e)) es ->
  forall data e, In e es ->
                 patch_entry (fold_left patch_entry es data) e
                 = fold_left patch_entry es data.
Proof.
  induction es as [|e' es IH]; intros Hids data e Hin; [destruct Hin|].
  inversion Hids as [|? ? Hid Hrest]; subst. cbn [fold_left].
  destruct Hin as [<-|Hin].
  - apply fold_patch_keeps_fixed; [assumption|]. apply patch_block_twice.
  - now apply IH.
Qed.

Lemma fold_patch_fixed (es : list (str * meta)) (data : str) :
  (forall e, In e es -> patch_entry data e = data) ->
  fold_left patch_entry es data = data.
Proof.
  induction es as [|e es IH]; intros H; [reflexivity|].
  cbn [fold_left]. rewrite (H e) by now left.
  apply IH. intros e' Hin. apply H. now right.
Qed.

Lemma configs_plain : Forall (fun e => plain_id (fst e)) CONFIGS.
Proof.
  repeat constructor; try discriminate;
    intros H; vm_compute in H; intuition discriminate.
Qed.

Lemma main_unchanged (file : str) :
  patch_all file = file ->
  main file = Outcome None [lit "No changes applied (already up to date?)"].
Proof.
  intros H. unfold main. apply str_eqb_eq in H. now rewrite H.
Qed.

(** X6: the loop of [main] is idempotent: a second pass over the text that a
    first pass produced changes nothing, so that a second run of [main]
    writes nothing and prints that no changes were applied. *)
Theorem patch_all_idempotent (file : str) :
  patch_all (patch_all file) = patch_all file
  /\ main (patch_all file)
     = Outcome None [lit "No changes applied (already up to date?)"].
Proof.
  assert (H : patch_all (patch_all file) = patch_all file).
  { apply (fold_patch_fixed CONFIGS). intros e Hin.
    apply (fold_patch_all_fixed CONFIGS configs_plain file e Hin). }
  split; [exact H|]. now apply main_unchanged.
Qed.

(** X7: a text without the marker [buildSettings = {] is returned unchanged
    by the loop of [main], which then writes nothing. *)
Theorem patch_all_no_marker (file : str) :
  contains BS_OPEN file = false ->
  patch_all file = file
  /\ main file = Outcome None [lit "No changes applied (already up to date?)"].
Proof.
  intros H.
  assert (E : patch_all file = file).
  { apply (fold_patch_fixed CONFIGS). intros e _.
    apply patch_block_not_located, settings_region_no_marker.
    now apply contains_false. }
  split; [exact E|]. now apply main_unchanged.
Qed.

Lemma patch_all_no_marker_witness :
  contains BS_OPEN bare_debug_block = false
  /\ patch_all bare_debug_block = bare_debug_block.
Proof.
  split; [reflexivity|].
  exact (proj1 (patch_all_no_marker bare_debug_block eq_refl)).
Defined.

Lemma fold_patch_block_fixed (es : list (str * meta)) :
  Forall (fun e => plain_id (fst e)) es ->
  forall data e, In e es ->
                 patch_block (fold_left patch_entry es data)
                             (fst e) (swift (snd e)) (infoplist (snd e))
                 = fold_left patch_entry es data.
Proof. exact (fold_patch_all_fixed es). Qed.

(** After the loop no entry of [CONFIGS] has anything left to do. *)
Lemma patch_all_fixed (file : str) (e : str * meta) :
  In e CONFIGS ->
  patch_block (patch_all file) (fst e) (swift (snd e)) (infoplist (snd e))
  = patch_all file.
Proof.
  intros Hin. exact (fold_patch_block_fixed CONFIGS configs_plain file e Hin).
Qed.

(** X8: after the loop of [main], every entry of [CONFIGS] whose region is
    found in the result has each of its requested keys in the content of
    that region. *)
Theorem patch_all_ensures_keys (file : str) (e : str * meta) (cs be : nat) :
  In e CONFIGS ->
  settings_region (patch_all file) (fst e) = Some (cs, be) ->
  (swift (snd e) = true ->
   contains SWIFT_KEY (slice (patch_all file) cs be) = true)
  /\ (infoplist (snd e) = true ->
      contains INFOPLIST_KEY (slice (patch_all file) cs be) = true).
Proof.
  intros Hin Hreg. pose proof (patch_all_fixed file e Hin) as Hfix.
  revert Hreg Hfix. generalize (patch_all file). intros data Hreg Hfix.
  apply (patch_block_fixed_iff _ _ _ _ _ _ Hreg) in Hfix.
  apply inserted_nil in Hfix as [H1 H2].
  split; intros Hflag; rewrite Hflag in *; cbn [andb] in *;
    now apply negb_false_iff.
Qed.

Lemma patch_all_ensures_keys_witness :
  contains SWIFT_KEY (slice (patch_all debug_block) 135 183) = true.
Proof.
  refine (proj1 (patch_all_ensures_keys debug_block
                   (ID_PROJECT_DEBUG, Meta (lit "Project Debug") true false)
                   135 183 _ _) eq_refl).
  - left. reflexivity.
  - vm_compute. reflexivity.
Defined.

(** X9: a match of [start_pat] starts at the leftmost occurrence of
    newline, tab, tab, identifier, [ /* ] and ends with the first [ */ = {]
    that starts at least one character after that head; the search fails
    when the identifier does not occur in that form. *)
Theorem start_pat_search_match (config_id text : str) (p e : nat) :
  start_pat_search config_id text = Some (p, e) ->
  startswith (skipn p text) (start_pat_head config_id) = true
  /\ (forall k, k < p ->
                startswith (skipn k text) (start_pat_head config_id) = false)
  /\ p + length (start_pat_head config_id) + 1 + length start_pat_tail <= e
  /\ e <= length text
  /\ startswith (skipn (e - length start_pat_tail) text) start_pat_tail = true
  /\ (forall k, p + length (start_pat_head config_id) + 1 <= k
                < e - length start_pat_tail ->
                startswith (skipn k text) start_pat_tail = false).
Proof.
  rewrite start_pat_search_find.
  destruct (find text (start_pat_head config_id) 0) as [p'|] eqn:Fp;
    [|discriminate].
  destruct (find text start_pat_tail _) as [q|] eqn:Fq; [|discriminate].
  intros [= <- <-].
  pose proof (find_Some_bound _ _ _ _ Fq) as [Hq1 Hq2].
  apply find_Some in Fp as (_ & Hat & Hbefore).
  apply find_Some in Fq as (_ & Hatq & Hbeforeq).
  change (length start_pat_tail) with 7 in *.
  replace (q + 7 - 7) with q by lia.
  split; [assumption|]. split; [intros k Hk; apply Hbefore; lia|].
  split; [lia|]. split; [lia|]. split; [assumption|].
  intros k Hk. apply Hbeforeq. lia.
Qed.

Lemma start_pat_search_match_witness :
  startswith (skipn 40 debug_block) (start_pat_head ID_PROJECT_DEBUG) = true.
Proof.
  exact (proj1 (start_pat_search_match ID_PROJECT_DEBUG debug_block 40 83
                  eq_refl)).
Defined.

Lemma patch_block_length (text config_id : str) (sw ip : bool) :
  length text <= length (patch_block text config_id sw ip)
  /\ (length (patch_block text config_id sw ip) = length text ->
      patch_block text config_id sw ip = text).
Proof.
  destruct (settings_region text config_id) as [[cs be]|] eqn:Hreg.
  - destruct (patched_region text config_id sw ip cs be Hreg) as (Hle & Hcut & _).
    rewrite Hcut, !length_app, length_firstn, length_skipn. split; [lia|].
    intros Hlen.
    assert (Hz : inserted sw ip (slice text cs be) = []).
    { apply length_zero_iff_nil. lia. }
    rewrite Hz. apply firstn_skipn.
  - rewrite (patch_block_not_located text config_id sw ip Hreg).
    split; [lia|reflexivity].
Qed.

Lemma patch_entry_length (data : str) (e : str * meta) :
  length data <= length (patch_entry data e)
  /\ (length (patch_entry data e) = length data -> patch_entry data e = data).
Proof. unfold patch_entry. apply patch_block_length. Qed.

Lemma fold_patch_length (es : list (str * meta)) :
  forall data,
    length data <= length (fold_left patch_entry es data)
    /\ (length (fold_left patch_entry es data) = length data ->
        fold_left patch_entry es data = data).
Proof.
  induction es as [|e es IH]; intros data; cbn [fold_left];
    [split; [lia|reflexivity]|].
  destruct (IH (patch_entry data e)) as [H1 H2].
  destruct (patch_entry_length data e) as [H3 H4].
  split; [lia|]. intros Hlen.
  rewrite H2 by lia. apply H4. lia.
Qed.

Lemma patch_all_length (file : str) :
  length file <= length (patch_all file)
  /\ (length (patch_all file) = length file -> patch_all file = file).
Proof. exact (fold_patch_length CONFIGS file). Qed.

(** X19: [main] only ever writes a longer text: what it hands to
    [write_text] is the result of the loop, and that is longer than the text
    read. *)
Theorem main_writes_longer (file data : str) :
  written (main file) = Some data ->
  data = patch_all file /\ length file < length data.
Proof.
  pose proof (patch_all_length file) as [Hle Heq].
  unfold main. revert Hle Heq. generalize (patch_all file). intros d Hle Heq.
  destruct (str_eqb d file) eqn:E; cbn [negb written]; [discriminate|].
  intros [= <-]. split; [reflexivity|].
  apply str_eqb_neq in E.
  destruct (Nat.eq_dec (length d) (length file)) as [Hl|Hl]; [|lia].
  exfalso. apply E. now apply Heq.
Qed.

Lemma main_writes_longer_witness :
  length debug_block < length (patch_all debug_block).
Proof.
  assert (Hw : written (main debug_block) = Some (patch_all debug_block)).
  { vm_compute. reflexivity. }
  exact (proj2 (main_writes_longer debug_block (patch_all debug_block) Hw)).
Defined.

End FixMore.


(** ** Further properties of the path substitution and the line filter *)

Module PathMore.
Import Py PyFacts FixFacts PatchXcframeworkPaths PathFacts Samples.

(** *** Lines and their joins *)

Lemma splitlines_from_clean_app (l : str) :
  forall cur s, no_linebreak l ->
                splitlines_from cur (l ++ s) = splitlines_from (cur ++ l) s.
Proof.
  induction l as [|c l IH]; intros cur s Hl.
  - now rewrite app_nil_r.
  - cbn [app splitlines_from]. rewrite (Hl c) by now left.
    rewrite IH; [now rewrite <- app_assoc|].
    intros d Hd. apply Hl. now right.
Qed.

Lemma splitlines_from_NL (cur s : str) :
  splitlines_from cur (NL :: s) = cur :: splitlines_from [] s.
Proof. reflexivity. Qed.

Lemma splitlines_from_cur (cur : str) :
  splitlines_from cur [] = match cur with [] => [] | _ :: _ => [cur] end.
Proof. reflexivity. Qed.

(** Splitting the join of lines gives the lines back, without the last one
    when that is empty. *)
Lemma splitlines_join (ls : list str) :
  Forall no_linebreak ls ->
  splitlines (join [NL] ls)
  = match last ls [] with [] => removelast ls | _ :: _ => ls end.
Proof.
  unfold splitlines. induction ls as [|l [|l2 rest] IH]; intros Hls.
  - reflexivity.
  - cbn [join last removelast].
    rewrite <- (app_nil_r l) at 1.
    rewrite splitlines_from_clean_app by now inversion Hls.
    cbn [app]. rewrite splitlines_from_cur. now destruct l.
  - assert (Hrest : Forall no_linebreak (l2 :: rest)) by now inversion Hls.
    change (join [NL] (l :: l2 :: rest))
      with (l ++ NL :: join [NL] (l2 :: rest)).
    rewrite splitlines_from_clean_app by now inversion Hls.
    cbn [app]. rewrite splitlines_from_NL, (IH Hrest).
    change (last (l :: l2 :: rest) []) with (last (l2 :: rest) []).
    change (removelast (l :: l2 :: rest)) with (l :: removelast (l2 :: rest)).
    now destruct (last (l2 :: rest) []).
Qed.

Lemma splitlines_from_nonempty (s : str) :
  forall cur, cur <> [] -> splitlines_from cur s <> [].
Proof.
  induction s as [|c s IH]; intros cur Hcur.
  - cbn. destruct cur; [contradiction|discriminate].
  - cbn [splitlines_from]. destruct (islinebreak c).
    + destruct (Ascii.eqb c CR); [|discriminate].
      destruct s as [|d s]; [discriminate|].
      destruct (Ascii.eqb d NL); discriminate.
    + apply IH. now destruct cur.
Qed.

Lemma splitlines_nonempty (s : str) : s <> [] -> splitlines s <> [].
Proof.
  unfold splitlines. destruct s as [|c s]; [contradiction|]. intros _.
  cbn [splitlines_from]. destruct (islinebreak c).
  - destruct (Ascii.eqb c CR); [|discriminate].
    destruct s as [|d s]; [discriminate|].
    destruct (Ascii.eqb d NL); discriminate.
  - apply splitlines_from_nonempty. discriminate.
Qed.

(** Joining the lines of a text gives the text back when its only line
    terminator is the newline and it does not end with one. *)
Lemma join_splitlines_from (s : str) :
  forall cur,
    (forall c, In c s -> islinebreak c = true -> c = NL) ->
    ends_with_linebreak (cur ++ s) = false ->
    join [NL] (splitlines_from cur s) = cur ++ s.
Proof.
  induction s as [|c s IH]; intros cur Hnl Hend.
  - rewrite app_nil_r. cbn. now destruct cur.
  - destruct (islinebreak c) eqn:Ec.
    + assert (c = NL) by (apply Hnl; [now left|assumption]). subst c.
      rewrite splitlines_from_NL.
      assert (Hs : s <> []).
      { intros ->. unfold ends_with_linebreak in Hend.
        rewrite rev_app_distr in Hend. discriminate Hend. }
      assert (Hend' : ends_with_linebreak s = false).
      { change (cur ++ NL :: s) with (cur ++ [NL] ++ s) in Hend.
        rewrite app_assoc, ends_with_linebreak_app in Hend; assumption. }
      pose proof (splitlines_nonempty s Hs) as Hne.
      fold (splitlines s) . fold (splitlines s) in IH.
      specialize (IH [] (fun d Hd => Hnl d (or_intror Hd)) Hend').
      unfold splitlines in *.
      destruct (splitlines_from [] s) as [|l L]; [contradiction|].
      change (join [NL] (cur :: l :: L)) with (cur ++ NL :: join [NL] (l :: L)).
      now rewrite IH.
    + cbn [splitlines_from]. rewrite Ec.
      rewrite IH.
      * now rewrite <- app_assoc.
      * intros d Hd. apply Hnl. now right.
      * now rewrite <- app_assoc.
Qed.

Lemma join_splitlines (s : str) :
  (forall c, In c s -> islinebreak c = true -> c = NL) ->
  ends_with_linebreak s = false ->
  join [NL] (splitlines s) = s.
Proof.
  intros Hnl Hend. apply (join_splitlines_from s [] Hnl Hend).
Qed.

(** *** The line filter and the whole transformation *)

Lemma kept_lines_filter (text : str) :
  kept_lines text
  = filter (fun line => negb (is_stale (strip line))) (splitlines text).
Proof. unfold kept_lines. now rewrite keep_loop_filter. Qed.

Lemma kept_lines_not_stale (text line : str) :
  In line (kept_lines text) -> is_stale (strip line) = false.
Proof.
  rewrite kept_lines_filter, filter_In. intros [_ H].
  now apply negb_true_iff.
Qed.

Lemma filter_all {A : Type} (f : A -> bool) (l : list A) :
  (forall x, In x l -> f x = true) -> filter f l = l.
Proof.
  induction l as [|a l IH]; intros H; [reflexivity|].
  simpl. rewrite (H a) by now left. f_equal. apply IH.
  intros x Hx. apply H. now right.
Qed.

Lemma In_removelast {A : Type} (l : list A) (x : A) :
  In x (removelast l) -> In x l.
Proof.
  induction l as [|a [|b l] IH]; intros H; [destruct H|destruct H|].
  destruct H as [<-|H]; [now left|]. right. now apply IH.
Qed.

(** The lines of the filtered text are among the kept lines. *)
Lemma splitlines_filter_lines (text line : str) :
  In line (splitlines (filter_lines text)) -> In line (kept_lines text).
Proof.
  unfold filter_lines.
  rewrite (splitlines_join _ (kept_lines_no_linebreak text)).
  destruct (last (kept_lines text) []); [apply In_removelast|trivial].
Qed.

(** X10: the line filter leaves no stale entry: no line of its output has
    one of the two stale strings as its trimmed form. *)
Theorem filter_lines_no_stale (text line : str) :
  In line (splitlines (filter_lines text)) ->
  strip line <> lit "Frameworks/llama_macos.xcframework,"
  /\ strip line <> lit "Frameworks/llama_ios.xcframework,".
Proof.
  intros Hin. apply splitlines_filter_lines, kept_lines_not_stale in Hin.
  split; intros E; rewrite (proj2 (is_stale_true _)) in Hin; auto; discriminate.
Qed.

Lemma filter_lines_no_stale_witness :
  strip (repeat TAB 4 ++ lit "Frameworks/llama_ios.xcframework_extra,")
  <> lit "Frameworks/llama_ios.xcframework,".
Proof.
  refine (proj2 (filter_lines_no_stale exceptions_list
                   (repeat TAB 4 ++ lit "Frameworks/llama_ios.xcframework_extra,")
                   _)).
  vm_compute. right. left. reflexivity.
Defined.

Lemma filter_lines_twice_aux (text : str) :
  ends_with_linebreak (filter_lines text) = false ->
  filter_lines (filter_lines text) = filter_lines text.
Proof.
  intros Hend. pose proof (kept_lines_no_linebreak text) as Hclean.
  assert (Hsplit : join [NL] (splitlines (filter_lines text))
                   = filter_lines text).
  { unfold filter_lines at 1. rewrite (splitlines_join _ Hclean).
    unfold filter_lines in Hend |- *.
    destruct (last (kept_lines text) []) as [|c l] eqn:El; [|reflexivity].
    destruct (kept_lines text) as [|l1 [|l2 rest]] eqn:Ek; [reflexivity| |].
    - cbn in El. subst l1. reflexivity.
    - exfalso. rewrite <- Ek in *.
      assert (H : ends_with_linebreak (join [NL] (kept_lines text)) = true).
      { apply (ends_with_linebreak_join _ Hclean). rewrite Ek at 1.
        split; [simpl; lia|assumption]. }
      rewrite H in Hend. discriminate. }
  unfold filter_lines at 1. rewrite kept_lines_filter, filter_all.
  - exact Hsplit.
  - intros line Hin. apply negb_true_iff.
    now apply (kept_lines_not_stale text), splitlines_filter_lines.
Qed.

(** X11: the line filter is idempotent on every text for which its output
    does not end with a line terminator. *)
Theorem filter_lines_twice (text : str) :
  ends_with_linebreak (filter_lines text) = false ->
  filter_lines (filter_lines text) = filter_lines text.
Proof. exact (filter_lines_twice_aux text). Qed.

Lemma filter_lines_twice_witness :
  filter_lines (filter_lines exceptions_list) = filter_lines exceptions_list.
Proof.
  apply (filter_lines_twice exceptions_list). vm_compute. reflexivity.
Defined.

(** X12: a second run of the whole transformation changes nothing when the
    output of the first run does not end with a line terminator and the
    two substitutions find nothing to rewrite in it. *)
Theorem rewritePaths_twice (text : str) :
  ends_with_linebreak (rewritePaths text) = false ->
  substitute (rewritePaths text) = rewritePaths text ->
  rewritePaths (rewritePaths text) = rewritePaths text.
Proof.
  intros Hend Hsub. unfold rewritePaths at 1. rewrite Hsub.
  apply filter_lines_twice_aux. exact Hend.
Qed.

Lemma rewritePaths_twice_witness :
  rewritePaths (rewritePaths attributes) = rewritePaths attributes.
Proof.
  apply (rewritePaths_twice attributes).
  - vm_compute. reflexivity.
  - apply str_eqb_eq. vm_compute. reflexivity.
Defined.

(** *** Texts without the old paths *)

Lemma not_assigned_of_not_contains (fname text : str) :
  contains (FRAMEWORKS ++ fname) text = false ->
  forall k, ~ assigned_at fname (skipn k text).
Proof.
  intros Hc k (r & Hs & _).
  assert (Hat : startswith (skipn k text) (FRAMEWORKS ++ fname) = true).
  { rewrite Hs, app_assoc. apply startswith_app. }
  assert (Hk : k <= length text).
  { destruct (Nat.le_gt_cases k (length text)); [assumption|].
    rewrite skipn_all2 in Hs by lia. discriminate Hs. }
  assert (Ht : contains (FRAMEWORKS ++ fname) text = true).
  { apply contains_true. now exists k. }
  congruence.
Qed.

Lemma re_sub_path_absent_aux (fname text : str) :
  contains (FRAMEWORKS ++ fname) text = false ->
  re_sub_path fname text = text.
Proof.
  intros Hc. apply (scoped_identity fname).
  - apply sub_scan_scoped. lia.
  - now apply not_assigned_of_not_contains.
Qed.

(** X13: a substitution returns unchanged every text in which its old path
    does not occur. *)
Theorem re_sub_path_absent (fname text : str) :
  contains (FRAMEWORKS ++ fname) text = false ->
  re_sub_path fname text = text.
Proof. exact (re_sub_path_absent_aux fname text). Qed.

Lemma re_sub_path_absent_witness :
  re_sub_path LLAMA_IOS attributes = attributes.
Proof.
  apply (re_sub_path_absent LLAMA_IOS attributes). reflexivity.
Defined.

Lemma In_join_sub (sep : str) (ls : list str) (l : str) :
  In l ls -> exists a b, join sep ls = a ++ l ++ b.
Proof.
  induction ls as [|l1 [|l2 rest] IH]; intros Hin.
  - destruct Hin.
  - destruct Hin as [<-|[]]. exists [], []. cbn. now rewrite app_nil_r.
  - change (join sep (l1 :: l2 :: rest))
      with (l1 ++ sep ++ join sep (l2 :: rest)).
    destruct Hin as [<-|Hin].
    + exists [], (sep ++ join sep (l2 :: rest)). reflexivity.
    + destruct (IH Hin) as (a & b & ->).
      exists (l1 ++ sep ++ a), b. now rewrite <- !app_assoc.
Qed.

Lemma lstrip_decomp (s : str) : exists ws, s = ws ++ lstrip s.
Proof.
  induction s as [|c s [ws IH]]; [now exists []|].
  cbn [lstrip]. destruct (isspace c).
  - exists (c :: ws). cbn. now f_equal.
  - now exists [].
Qed.

Lemma strip_decomp (s : str) : exists a b, s = a ++ strip s ++ b.
Proof.
  unfold strip, rstrip.
  destruct (lstrip_decomp s) as [a Ea].
  destruct (lstrip_decomp (rev (lstrip s))) as [b Eb].
  exists a, (rev b). rewrite <- rev_app_distr, <- Eb, rev_involutive.
  exact Ea.
Qed.

Lemma contains_inside (sub a l b : str) :
  contains sub l = true -> contains sub (a ++ l ++ b) = true.
Proof.
  intros H. now apply contains_app_r, contains_app_l.
Qed.

Lemma stale_contains_old (l : str) :
  is_stale l = true ->
  contains (FRAMEWORKS ++ LLAMA_MACOS) l = true
  \/ contains (FRAMEWORKS ++ LLAMA_IOS) l = true.
Proof.
  intros H. apply is_stale_true in H as [-> | ->]; [left|right]; reflexivity.
Qed.

(** X14: a text that contains neither old path, has the newline as its
    only line terminator and does not end with one is returned unchanged,
    and the driver writes nothing and reports that no changes were made. *)
Theorem rewritePaths_clean_identity (text : str) :
  contains (FRAMEWORKS ++ LLAMA_MACOS) text = false ->
  contains (FRAMEWORKS ++ LLAMA_IOS) text = false ->
  (forall c, In c text -> islinebreak c = true -> c = NL) ->
  ends_with_linebreak text = false ->
  rewritePaths text = text
  /\ main text = Outcome None [lit "No changes made (already clean)"].
Proof.
  intros Hm Hi Hnl Hend.
  pose proof (join_splitlines text Hnl Hend) as Hjoin.
  assert (E : rewritePaths text = text).
  { rewrite rewritePaths_clean; [exact Hjoin| | |].
    - now apply not_assigned_of_not_contains.
    - now apply not_assigned_of_not_contains.
    - intros line Hin. destruct (is_stale (strip line)) eqn:Es; [|reflexivity].
      exfalso. destruct (In_join_sub [NL] _ _ Hin) as (a & b & Ea).
      rewrite Hjoin in Ea. destruct (strip_decomp line) as (a' & b' & El).
      apply stale_contains_old in Es as [Hc|Hc];
        apply (contains_inside _ a' _ b') in Hc; rewrite <- El in Hc;
        apply (contains_inside _ a _ b) in Hc; rewrite <- Ea in Hc;
        congruence. }
  split; [exact E|]. unfold main. apply str_eqb_eq in E. now rewrite E.
Qed.

Lemma rewritePaths_clean_identity_witness :
  rewritePaths clean_file_stripped = clean_file_stripped.
Proof.
  refine (proj1 (rewritePaths_clean_identity clean_file_stripped
                   eq_refl eq_refl _ eq_refl)).
  intros c Hin Hb. vm_compute in Hin.
  repeat (destruct Hin as [<-|Hin]; [try reflexivity; discriminate Hb|]).
  destruct Hin.
Defined.

(** *** The scan of [re.sub] *)

Lemma sub_scan_S (fuel : nat) (fname : str) (prev : option ascii) (s : str) :
  sub_scan (S fuel) fname prev s
  = match path_match_at fname prev s with
    | Some (g2, rest) =>
        FRAMEWORKS ++ XCFRAMEWORKS ++ fname ++ g2
          ++ sub_scan fuel fname (Some EQUALS) rest
    | None => match s with
              | [] => []
              | c :: s' => c :: sub_scan fuel fname (Some c) s'
              end
    end.
Proof. reflexivity. Qed.

Lemma scan_from_eq (fname : str) (prev : option ascii) (s : str) :
  scan_from fname prev s
  = match path_match_at fname prev s with
    | Some (g2, rest) =>
        FRAMEWORKS ++ XCFRAMEWORKS ++ fname ++ g2
          ++ scan_from fname (Some EQUALS) rest
    | None => match s with
              | [] => []
              | c :: s' => c :: scan_from fname (Some c) s'
              end
    end.
Proof.
  unfold scan_from. rewrite sub_scan_S.
  destruct (path_match_at fname prev s) as [[g2 rest]|] eqn:Em.
  - apply path_match_at_Some in Em as (ws & -> & Hws & ->).
    do 4 f_equal. apply sub_scan_fuel; [|lia].
    rewrite !length_app. simpl. lia.
  - destruct s as [|c s]; reflexivity.
Qed.

Lemma re_sub_path_scan (fname text : str) :
  re_sub_path fname text = scan_from fname None text.
Proof. reflexivity. Qed.

Lemma scan_from_scoped (fname : str) (prev : option ascii) (s : str) :
  scoped_rewrite fname s (scan_from fname prev s).
Proof. apply sub_scan_scoped. lia. Qed.

Lemma strip_prefix_app (p r : str) : strip_prefix p (p ++ r) = Some r.
Proof.
  induction p as [|a p IH]; [reflexivity|].
  cbn [app strip_prefix]. now rewrite Ascii.eqb_refl.
Qed.

Lemma span_space_run (ws r : str) :
  forallb isspace ws = true ->
  span_space (ws ++ EQUALS :: r) = (ws, EQUALS :: r).
Proof.
  induction ws as [|c ws IH]; intros H; [reflexivity|].
  cbn [forallb] in H. apply andb_prop in H as [Hc Hws].
  cbn [app span_space]. now rewrite Hc, (IH Hws).
Qed.

(** A match is there exactly when the character before is no word
    character and the old path, white space and the equals sign follow. *)
Lemma path_match_at_iff (fname : str) (prev : option ascii) (s g2 rest : str) :
  path_match_at fname prev s = Some (g2, rest) <->
  word_at prev = false
  /\ exists ws, g2 = ws ++ [EQUALS] /\ forallb isspace ws = true
                /\ s = FRAMEWORKS ++ fname ++ ws ++ [EQUALS] ++ rest.
Proof.
  split.
  - intros H. pose proof (path_match_at_Some _ _ _ _ _ H) as (ws & Hg & Hws & Hs).
    split; [|now exists ws].
    unfold path_match_at in H. rewrite Hs in H.
    change (hd_error (FRAMEWORKS ++ fname ++ ws ++ [EQUALS] ++ rest))
      with (Some "F"%char) in H.
    unfold word_boundary in H. change (word_at (Some "F"%char)) with true in H.
    destruct (word_at prev); [discriminate H|reflexivity].
  - intros (Hprev & ws & -> & Hws & ->). unfold path_match_at.
    change (hd_error (FRAMEWORKS ++ fname ++ ws ++ [EQUALS] ++ rest))
      with (Some "F"%char).
    unfold word_boundary. rewrite Hprev.
    change (xorb false (word_at (Some "F"%char))) with true. cbv iota.
    rewrite app_assoc, strip_prefix_app.
    change (ws ++ [EQUALS] ++ rest) with (ws ++ EQUALS :: rest).
    rewrite (span_space_run _ _ Hws). now rewrite Ascii.eqb_refl.
Qed.

Lemma path_match_at_not_F (fname : str) (prev : option ascii) (c : ascii) (s : str) :
  c <> "F"%char -> path_match_at fname prev (c :: s) = None.
Proof.
  intros Hc. destruct (path_match_at fname prev (c :: s)) as [[g2 rest]|] eqn:E;
    [|reflexivity].
  apply path_match_at_Some in E as (ws & _ & _ & Hs).
  exfalso. apply Hc. now injection Hs.
Qed.

Lemma prev_after_cons (prev : option ascii) (c : ascii) (u : str) :
  prev_after prev (c :: u) = prev_after (Some c) u.
Proof.
  unfold prev_after. cbn [map]. destruct u as [|d u]; [reflexivity|].
  cbn [map]. generalize (Some d :: map Some u).
  intros l. revert prev. generalize (Some c).
  induction l as [|x l IH]; intros a b; [reflexivity|].
  destruct l; [reflexivity|]. cbn [last] in *. apply IH.
Qed.

Lemma prev_after_app (prev : option ascii) (u v : str) :
  prev_after prev (u ++ v) = prev_after (prev_after prev u) v.
Proof.
  revert prev; induction u as [|c u IH]; intros prev; [reflexivity|].
  cbn [app]. now rewrite !prev_after_cons, IH.
Qed.

Lemma prev_after_one (prev : option ascii) (c : ascii) :
  prev_after prev [c] = Some c.
Proof. reflexivity. Qed.

(** A run without an [F] is copied, and the scan goes on behind it. *)
Lemma scan_copy_run (fname u : str) :
  forall prev s,
    ~ In "F"%char u ->
    scan_from fname prev (u ++ s) = u ++ scan_from fname (prev_after prev u) s.
Proof.
  induction u as [|c u IH]; intros prev s HF; [reflexivity|].
  cbn [app]. rewrite scan_from_eq, path_match_at_not_F.
  - rewrite IH, prev_after_cons; [reflexivity|].
    intros Hin. apply HF. now right.
  - intros ->. apply HF. now left.
Qed.

(** A run without an [F] at the front of the result was copied from the
    front of the text. *)
Lemma scoped_prefix_back (fname u : str) :
  forall s r',
    ~ In "F"%char u -> scoped_rewrite fname s (u ++ r') ->
    exists r, s = u ++ r /\ scoped_rewrite fname r r'.
Proof.
  induction u as [|c u IH]; intros s r' HF H.
  - exists s. auto.
  - remember ((c :: u) ++ r') as o eqn:Eo.
    destruct H as [|c0 s o H|ws s o Hws H].
    + discriminate.
    + injection Eo as -> ->.
      destruct (IH s r') as (r & -> & Hr); [|assumption|].
      { intros Hin. apply HF. now right. }
      exists r. auto.
    + exfalso. injection Eo as E _. apply HF. left. now rewrite <- E.
Qed.

Lemma match_run_no_F (fname ws : str) :
  ~ In "F"%char fname -> forallb isspace ws = true ->
  ~ In "F"%char (lit "rameworks/" ++ fname ++ ws ++ [EQUALS]).
Proof.
  intros HF Hws Hin.
  apply in_app_or in Hin as [Hin|Hin].
  { vm_compute in Hin. intuition discriminate. }
  apply in_app_or in Hin as [Hin|Hin]; [now apply HF|].
  apply in_app_or in Hin as [Hin|Hin]; [now apply (isspace_run_no_F ws)|].
  destruct Hin as [Hin|[]]. discriminate Hin.
Qed.

Lemma new_run_no_F (fname ws : str) :
  ~ In "F"%char fname -> forallb isspace ws = true ->
  ~ In "F"%char (lit "rameworks/" ++ XCFRAMEWORKS ++ fname ++ ws ++ [EQUALS]).
Proof.
  intros HF Hws Hin.
  apply in_app_or in Hin as [Hin|Hin].
  { vm_compute in Hin. intuition discriminate. }
  apply in_app_or in Hin as [Hin|Hin].
  { vm_compute in Hin. intuition discriminate. }
  apply in_app_or in Hin as [Hin|Hin]; [now apply HF|].
  apply in_app_or in Hin as [Hin|Hin]; [now apply (isspace_run_no_F ws)|].
  destruct Hin as [Hin|[]]. discriminate Hin.
Qed.

(** The new path is no match of the pattern for a file name that starts
    with another character than [x]. *)
Lemma no_match_at_new (fname : str) (prev : option ascii) (s : str) :
  (exists c f, fname = c :: f /\ c <> "x"%char) ->
  path_match_at fname prev (FRAMEWORKS ++ XCFRAMEWORKS ++ s) = None.
Proof.
  intros (c & f & -> & Hc).
  destruct (path_match_at (c :: f) prev (FRAMEWORKS ++ XCFRAMEWORKS ++ s))
    as [[g2 rest]|] eqn:E; [|reflexivity].
  apply path_match_at_Some in E as (ws & _ & _ & Hs).
  apply app_inv_head in Hs. exfalso. apply Hc. now injection Hs.
Qed.

Lemma scan_from_nil (fname : str) (prev : option ascii) :
  scan_from fname prev [] = [].
Proof.
  rewrite scan_from_eq.
  destruct (path_match_at fname prev []) as [[g2 rest]|] eqn:E; [|reflexivity].
  apply path_match_at_Some in E as (ws & _ & _ & Hs). discriminate Hs.
Qed.

(** Scanning the result of a scan again finds no match. *)
Lemma scan_from_twice (fname : str) :
  ~ In "F"%char fname ->
  (exists c f, fname = c :: f /\ c <> "x"%char) ->
  forall n s prev,
    length s <= n ->
    scan_from fname prev (scan_from fname prev s) = scan_from fname prev s.
Proof.
  intros HF Hx. induction n as [|n IH]; intros s prev Hlen.
  { destruct s; [|simpl in Hlen; lia]. now rewrite !scan_from_nil. }
  rewrite (scan_from_eq fname prev s).
  destruct (path_match_at fname prev s) as [[g2 rest]|] eqn:Em.
  - apply path_match_at_iff in Em as (Hprev & ws & -> & Hws & ->).
    rewrite scan_from_eq, (no_match_at_new fname prev _ Hx).
    change (FRAMEWORKS ++ XCFRAMEWORKS ++ fname ++ (ws ++ [EQUALS])
              ++ scan_from fname (Some EQUALS) rest)
      with ("F"%char :: lit "rameworks/" ++ XCFRAMEWORKS ++ fname
              ++ (ws ++ [EQUALS]) ++ scan_from fname (Some EQUALS) rest).
    f_equal.
    replace (lit "rameworks/" ++ XCFRAMEWORKS ++ fname ++ (ws ++ [EQUALS])
               ++ scan_from fname (Some EQUALS) rest)
      with ((lit "rameworks/" ++ XCFRAMEWORKS ++ fname ++ ws ++ [EQUALS])
              ++ scan_from fname (Some EQUALS) rest)
      by (now rewrite <- !app_assoc).
    rewrite scan_copy_run by now apply new_run_no_F.
    rewrite !prev_after_app, prev_after_one.
    rewrite IH; [reflexivity|].
    rewrite !length_app in Hlen. simpl in Hlen. lia.
  - destruct s as [|c s]; [apply scan_from_nil|].
    rewrite scan_from_eq.
    destruct (path_match_at fname prev (c :: scan_from fname (Some c) s))
      as [[g2 rest]|] eqn:Eo.
    + exfalso. apply path_match_at_iff in Eo as (Hprev & ws & -> & Hws & Ho).
      change (FRAMEWORKS ++ fname ++ ws ++ [EQUALS] ++ rest)
        with ("F"%char :: lit "rameworks/" ++ fname ++ ws ++ [EQUALS] ++ rest)
        in Ho.
      injection Ho as -> Ho.
      pose proof (scan_from_scoped fname (Some "F"%char) s) as Hsc.
      assert (Ho' : scan_from fname (Some "F"%char) s
                    = (lit "rameworks/" ++ fname ++ ws ++ [EQUALS]) ++ rest).
      { rewrite Ho, <- !app_assoc. reflexivity. }
      rewrite Ho' in Hsc.
      apply scoped_prefix_back in Hsc as (r & -> & _);
        [|now apply match_run_no_F].
      assert (Hm : path_match_at fname prev
                     ("F"%char :: (lit "rameworks/" ++ fname ++ ws ++ [EQUALS]) ++ r)
                   = Some (ws ++ [EQUALS], r)).
      { apply path_match_at_iff. split; [assumption|]. exists ws.
        repeat split; [assumption|].
        rewrite <- !app_assoc. reflexivity. }
      rewrite Hm in Em. discriminate Em.
    + f_equal. apply IH. simpl in Hlen. lia.
Qed.

(** X15: each of the two substitutions is idempotent: in the text it
    returns there is nothing left for it to rewrite. *)
Theorem re_sub_path_idempotent (fname text : str) :
  fname = LLAMA_MACOS \/ fname = LLAMA_IOS ->
  re_sub_path fname (re_sub_path fname text) = re_sub_path fname text.
Proof.
  intros Hname. rewrite !re_sub_path_scan.
  apply (scan_from_twice fname) with (n := length text); [| |lia].
  - destruct Hname as [-> | ->]; intros H; vm_compute in H;
      intuition discriminate.
  - destruct Hname as [-> | ->]; eexists _, _; (split; [reflexivity|discriminate]).
Qed.

Lemma re_sub_path_idempotent_witness :
  re_sub_path LLAMA_MACOS (re_sub_path LLAMA_MACOS attributes)
  = re_sub_path LLAMA_MACOS attributes.
Proof.
  apply (re_sub_path_idempotent LLAMA_MACOS attributes). left. reflexivity.
Defined.

Lemma prev_after_match (fname ws l : str) (prev : option ascii) :
  prev_after prev ((FRAMEWORKS ++ fname ++ ws ++ [EQUALS]) ++ l)
  = prev_after (Some EQUALS) l.
Proof.
  rewrite !prev_after_app, prev_after_one. reflexivity.
Qed.

(** No match runs over an [F]: the scan of a text with an [F] in it is the
    scan of the part before the [F] followed by the scan from the [F] on. *)
Lemma scan_split (fname : str) :
  ~ In "F"%char fname ->
  forall n a prev z,
    length a <= n ->
    scan_from fname prev (a ++ "F"%char :: z)
    = scan_from fname prev a
      ++ scan_from fname (prev_after prev a) ("F"%char :: z).
Proof.
  intros HF. induction n as [|n IH]; intros a prev z Hlen.
  { destruct a; [|simpl in Hlen; lia]. now rewrite scan_from_nil. }
  destruct a as [|c a]; [now rewrite scan_from_nil|].
  rewrite (scan_from_eq fname prev ((c :: a) ++ "F"%char :: z)).
  rewrite (scan_from_eq fname prev (c :: a)).
  destruct (path_match_at fname prev (c :: a)) as [[g2 l]|] eqn:Ea.
  - apply path_match_at_iff in Ea as (Hprev & ws & -> & Hws & Ea).
    assert (Hm : path_match_at fname prev ((c :: a) ++ "F"%char :: z)
                 = Some (ws ++ [EQUALS], l ++ "F"%char :: z)).
    { apply path_match_at_iff. split; [assumption|]. exists ws.
      repeat split; [assumption|]. rewrite Ea, <- !app_assoc. reflexivity. }
    rewrite Hm, IH.
    + replace (prev_after prev (c :: a)) with (prev_after (Some EQUALS) l).
      * now rewrite <- !app_assoc.
      * rewrite Ea.
        replace (FRAMEWORKS ++ fname ++ ws ++ [EQUALS] ++ l)
          with ((FRAMEWORKS ++ fname ++ ws ++ [EQUALS]) ++ l)
          by (now rewrite <- !app_assoc).
        symmetry. apply prev_after_match.
    + apply (f_equal (@length ascii)) in Ea.
      rewrite !length_app in Ea. simpl in Ea, Hlen. lia.
  - destruct (path_match_at fname prev ((c :: a) ++ "F"%char :: z))
      as [[g2 rest]|] eqn:Ez.
    + exfalso. apply path_match_at_iff in Ez as (Hprev & ws & -> & Hws & Ez).
      change (FRAMEWORKS ++ fname ++ ws ++ [EQUALS] ++ rest)
        with ("F"%char :: lit "rameworks/" ++ fname ++ ws ++ [EQUALS] ++ rest)
        in Ez.
      cbn [app] in Ez. injection Ez as -> Ez.
      assert (Ez' : a ++ "F"%char :: z
                    = (lit "rameworks/" ++ fname ++ ws ++ [EQUALS]) ++ rest).
      { rewrite Ez, <- !app_assoc. reflexivity. }
      pose proof (match_run_no_F fname ws HF Hws) as Hno.
      apply app_eq_app in Ez' as [l [[E1 E2]|[E1 E2]]].
      * assert (Hm : path_match_at fname prev ("F"%char :: a)
                     = Some (ws ++ [EQUALS], l)).
        { apply path_match_at_iff. split; [assumption|]. exists ws.
          repeat split; [assumption|]. rewrite E1, <- !app_assoc. reflexivity. }
        rewrite Hm in Ea. discriminate Ea.
      * destruct l as [|x l].
        -- rewrite app_nil_r in E1.
           assert (Hm : path_match_at fname prev ("F"%char :: a)
                        = Some (ws ++ [EQUALS], [])).
           { apply path_match_at_iff. split; [assumption|]. exists ws.
             repeat split; [assumption|].
             rewrite <- E1. reflexivity. }
           rewrite Hm in Ea. discriminate Ea.
        -- injection E2 as <- _. apply Hno. rewrite E1.
           apply in_or_app. right. now left.
    + cbn [app]. rewrite IH by (simpl in Hlen; lia).
      now rewrite prev_after_cons.
Qed.

Lemma scan_rewrites_aux (fname a ws r : str) :
  ~ In "F"%char fname ->
  forallb isspace ws = true ->
  word_at (prev_after None a) = false ->
  re_sub_path fname (a ++ FRAMEWORKS ++ fname ++ ws ++ [EQUALS] ++ r)
  = scan_from fname None a
    ++ FRAMEWORKS ++ XCFRAMEWORKS ++ fname ++ ws ++ [EQUALS]
    ++ scan_from fname (Some EQUALS) r.
Proof.
  intros HF Hws Hprev. rewrite re_sub_path_scan.
  change (a ++ FRAMEWORKS ++ fname ++ ws ++ [EQUALS] ++ r)
    with (a ++ "F"%char :: lit "rameworks/" ++ fname ++ ws ++ [EQUALS] ++ r).
  rewrite (scan_split fname HF (length a)) by lia. f_equal.
  rewrite scan_from_eq.
  assert (Hm : path_match_at fname (prev_after None a)
                 ("F"%char :: lit "rameworks/" ++ fname ++ ws ++ [EQUALS] ++ r)
               = Some (ws ++ [EQUALS], r)).
  { apply path_match_at_iff. split; [assumption|]. exists ws. auto. }
  rewrite Hm, <- !app_assoc. reflexivity.
Qed.

(** X16: an occurrence of the old path that is followed by optional white
    space and [=], and is at the start of the text or behind a character
    that is no word character, is rewritten to the new path with its
    context; the text before it and the text after it are rewritten on their
    own. *)
Theorem re_sub_path_rewrites (fname a ws r : str) :
  ~ In "F"%char fname ->
  forallb isspace ws = true ->
  word_at (prev_after None a) = false ->
  exists a' r',
    re_sub_path fname (a ++ FRAMEWORKS ++ fname ++ ws ++ [EQUALS] ++ r)
    = a' ++ FRAMEWORKS ++ XCFRAMEWORKS ++ fname ++ ws ++ [EQUALS] ++ r'
    /\ scoped_rewrite fname a a' /\ scoped_rewrite fname r r'.
Proof.
  intros HF Hws Hprev.
  exists (scan_from fname None a), (scan_from fname (Some EQUALS) r).
  split; [now apply scan_rewrites_aux|].
  split; apply scan_from_scoped.
Qed.

Lemma re_sub_path_rewrites_witness :
  exists a' r',
    re_sub_path LLAMA_MACOS
      (repeat TAB 4 ++ FRAMEWORKS ++ LLAMA_MACOS ++ lit " " ++ [EQUALS]
         ++ lit " {")
    = a' ++ FRAMEWORKS ++ XCFRAMEWORKS ++ LLAMA_MACOS ++ lit " " ++ [EQUALS] ++ r'
    /\ scoped_rewrite LLAMA_MACOS (repeat TAB 4) a'
    /\ scoped_rewrite LLAMA_MACOS (lit " {") r'.
Proof.
  apply (re_sub_path_rewrites LLAMA_MACOS (repeat TAB 4) (lit " ") (lit " {")).
  - intros H. vm_compute in H. intuition discriminate.
  - reflexivity.
  - reflexivity.
Defined.

Lemma cons_tail_eq {A : Type} (a b : A) (x y : list A) :
  a :: x = b :: y -> x = y.
Proof. intros H. now injection H. Qed.

(** *** The two substitutions together *)

Section TwoNames.

Variables (f g : str).
Hypothesis HFf : ~ In "F"%char f.
Hypothesis HFg : ~ In "F"%char g.
Hypothesis Hxf : exists c f', f = c :: f' /\ c <> "x"%char.
Hypothesis Hfg : forall x y, f ++ x <> g ++ y.

Lemma fixed_no_match (prev : option ascii) (u : str) :
  scan_from f prev u = u -> path_match_at f prev u = None.
Proof.
  intros Hfix.
  destruct (path_match_at f prev u) as [[g2 rest]|] eqn:E; [|reflexivity].
  exfalso. rewrite scan_from_eq, E in Hfix.
  apply path_match_at_Some in E as (ws & -> & _ & ->).
  apply app_inv_head in Hfix.
  destruct Hxf as (c & f' & -> & Hc). apply Hc. now injection Hfix.
Qed.

Lemma other_match_no_match (prev : option ascii) (u g2 rest : str) :
  path_match_at g prev u = Some (g2, rest) -> path_match_at f prev u = None.
Proof.
  intros Hg.
  destruct (path_match_at f prev u) as [[g2' rest']|] eqn:E; [|reflexivity].
  exfalso.
  apply path_match_at_Some in Hg as (ws & _ & _ & ->).
  apply path_match_at_Some in E as (ws' & _ & _ & E).
  apply app_inv_head in E. now apply (Hfg _ _ (eq_sym E)).
Qed.

(** A text in which the substitution for [f] finds nothing is still such a
    text after the substitution for [g]. *)
Lemma scan_other_fixed :
  forall n u prev,
    length u <= n ->
    scan_from f prev u = u ->
    scan_from f prev (scan_from g prev u) = scan_from g prev u.
Proof.
  induction n as [|n IH]; intros u prev Hlen Hfix.
  { destruct u; [|simpl in Hlen; lia]. now rewrite !scan_from_nil. }
  pose proof (fixed_no_match prev u Hfix) as Hnf.
  rewrite (scan_from_eq g prev u).
  destruct (path_match_at g prev u) as [[g2 rest]|] eqn:Eg.
  - apply path_match_at_iff in Eg as (Hprev & ws & -> & Hws & ->).
    assert (Hrest : scan_from f (Some EQUALS) rest = rest).
    { rewrite scan_from_eq, Hnf in Hfix.
      change (FRAMEWORKS ++ g ++ ws ++ [EQUALS] ++ rest)
        with ("F"%char :: lit "rameworks/" ++ g ++ ws ++ [EQUALS] ++ rest)
        in Hfix.
      assert (Hfix' : scan_from f (Some "F"%char)
                        ((lit "rameworks/" ++ g ++ ws ++ [EQUALS]) ++ rest)
                      = (lit "rameworks/" ++ g ++ ws ++ [EQUALS]) ++ rest).
      { rewrite <- !app_assoc. exact (cons_tail_eq _ _ _ _ Hfix). }
      rewrite scan_copy_run in Hfix' by now apply match_run_no_F.
      apply app_inv_head in Hfix'.
      now rewrite !prev_after_app, prev_after_one in Hfix'. }
    rewrite scan_from_eq, (no_match_at_new f prev _ Hxf).
    change (FRAMEWORKS ++ XCFRAMEWORKS ++ g ++ (ws ++ [EQUALS])
              ++ scan_from g (Some EQUALS) rest)
      with ("F"%char :: lit "rameworks/" ++ XCFRAMEWORKS ++ g
              ++ (ws ++ [EQUALS]) ++ scan_from g (Some EQUALS) rest).
    f_equal.
    replace (lit "rameworks/" ++ XCFRAMEWORKS ++ g ++ (ws ++ [EQUALS])
               ++ scan_from g (Some EQUALS) rest)
      with ((lit "rameworks/" ++ XCFRAMEWORKS ++ g ++ ws ++ [EQUALS])
              ++ scan_from g (Some EQUALS) rest)
      by (now rewrite <- !app_assoc).
    rewrite scan_copy_run by now apply new_run_no_F.
    rewrite !prev_after_app, prev_after_one.
    rewrite IH; [reflexivity| |assumption].
    rewrite !length_app in Hlen. simpl in Hlen. lia.
  - destruct u as [|c u]; [apply scan_from_nil|].
    assert (Hu : scan_from f (Some c) u = u).
    { rewrite scan_from_eq, Hnf in Hfix. exact (cons_tail_eq _ _ _ _ Hfix). }
    rewrite scan_from_eq.
    destruct (path_match_at f prev (c :: scan_from g (Some c) u))
      as [[g2 rest]|] eqn:Eo.
    + exfalso. apply path_match_at_iff in Eo as (Hprev & ws & -> & Hws & Ho).
      change (FRAMEWORKS ++ f ++ ws ++ [EQUALS] ++ rest)
        with ("F"%char :: lit "rameworks/" ++ f ++ ws ++ [EQUALS] ++ rest)
        in Ho.
      injection Ho as -> Ho.
      pose proof (scan_from_scoped g (Some "F"%char) u) as Hsc.
      assert (Ho' : scan_from g (Some "F"%char) u
                    = (lit "rameworks/" ++ f ++ ws ++ [EQUALS]) ++ rest).
      { rewrite Ho, <- !app_assoc. reflexivity. }
      rewrite Ho' in Hsc.
      apply scoped_prefix_back in Hsc as (r & -> & _);
        [|now apply match_run_no_F].
      assert (Hm : path_match_at f prev
                     ("F"%char :: (lit "rameworks/" ++ f ++ ws ++ [EQUALS]) ++ r)
                   = Some (ws ++ [EQUALS], r)).
      { apply path_match_at_iff. split; [assumption|]. exists ws.
        repeat split; [assumption|].
        rewrite <- !app_assoc. reflexivity. }
      rewrite Hm in Hnf. discriminate Hnf.
    + f_equal. apply IH; [simpl in Hlen; lia|assumption].
Qed.

End TwoNames.

Lemma macos_no_F : ~ In "F"%char LLAMA_MACOS.
Proof. intros H. vm_compute in H. intuition discriminate. Qed.

Lemma ios_no_F : ~ In "F"%char LLAMA_IOS.
Proof. intros H. vm_compute in H. intuition discriminate. Qed.

Lemma macos_not_x : exists c f, LLAMA_MACOS = c :: f /\ c <> "x"%char.
Proof. eexists _, _. split; [reflexivity|discriminate]. Qed.

Lemma ios_not_x : exists c f, LLAMA_IOS = c :: f /\ c <> "x"%char.
Proof. eexists _, _. split; [reflexivity|discriminate]. Qed.

Lemma macos_ios_apart (x y : str) : LLAMA_MACOS ++ x <> LLAMA_IOS ++ y.
Proof. intros H. discriminate H. Qed.

(** X17: step 1 as a whole is idempotent: after the two substitutions,
    neither of them finds anything to rewrite. *)
Theorem substitute_idempotent (text : str) :
  substitute (substitute text) = substitute text.
Proof.
  unfold substitute. rewrite !re_sub_path_scan.
  set (u := scan_from LLAMA_MACOS None text).
  assert (Hu : scan_from LLAMA_MACOS None u = u).
  { apply (scan_from_twice LLAMA_MACOS macos_no_F macos_not_x (length text)).
    lia. }
  rewrite (scan_other_fixed LLAMA_MACOS LLAMA_IOS macos_no_F ios_no_F
             macos_not_x macos_ios_apart (length u) u None (le_n _) Hu).
  apply (scan_from_twice LLAMA_IOS ios_no_F ios_not_x (length u)). lia.
Qed.

Section Commute.

Variables (f g : str).
Hypothesis HFf : ~ In "F"%char f.
Hypothesis HFg : ~ In "F"%char g.
Hypothesis Hxf : exists c f', f = c :: f' /\ c <> "x"%char.
Hypothesis Hxg : exists c g', g = c :: g' /\ c <> "x"%char.
Hypothesis Hfg : forall x y, f ++ x <> g ++ y.

(** The scan for one name over a match of the other: nothing is found at
    its head, and the rest of the match is copied. *)
Lemma scan_over_other_match (h k : str) (prev : option ascii) (ws rest : str) :
  ~ In "F"%char k ->
  (forall x y, h ++ x <> k ++ y) ->
  forallb isspace ws = true ->
  scan_from h prev (FRAMEWORKS ++ k ++ ws ++ [EQUALS] ++ rest)
  = FRAMEWORKS ++ k ++ ws ++ [EQUALS] ++ scan_from h (Some EQUALS) rest.
Proof.
  intros HFk Hhk Hws. rewrite scan_from_eq.
  destruct (path_match_at h prev (FRAMEWORKS ++ k ++ ws ++ [EQUALS] ++ rest))
    as [[g2 r]|] eqn:E.
  { exfalso. apply path_match_at_Some in E as (ws' & _ & _ & E).
    apply app_inv_head in E. now apply (Hhk _ _ (eq_sym E)). }
  change (FRAMEWORKS ++ k ++ ws ++ [EQUALS] ++ rest)
    with ("F"%char :: lit "rameworks/" ++ k ++ ws ++ [EQUALS] ++ rest).
  f_equal.
  replace (lit "rameworks/" ++ k ++ ws ++ [EQUALS] ++ rest)
    with ((lit "rameworks/" ++ k ++ ws ++ [EQUALS]) ++ rest)
    by (now rewrite <- !app_assoc).
  rewrite scan_copy_run by now apply match_run_no_F.
  rewrite !prev_after_app, prev_after_one. now rewrite <- !app_assoc.
Qed.

(** The scan for one name over the new path of the other. *)
Lemma scan_over_new (h k : str) (prev : option ascii) (ws rest : str) :
  ~ In "F"%char k ->
  (exists c h', h = c :: h' /\ c <> "x"%char) ->
  forallb isspace ws = true ->
  scan_from h prev (FRAMEWORKS ++ XCFRAMEWORKS ++ k ++ (ws ++ [EQUALS]) ++ rest)
  = FRAMEWORKS ++ XCFRAMEWORKS ++ k ++ (ws ++ [EQUALS])
    ++ scan_from h (Some EQUALS) rest.
Proof.
  intros HFk Hxh Hws. rewrite scan_from_eq, (no_match_at_new h prev _ Hxh).
  change (FRAMEWORKS ++ XCFRAMEWORKS ++ k ++ (ws ++ [EQUALS]) ++ rest)
    with ("F"%char :: lit "rameworks/" ++ XCFRAMEWORKS ++ k
            ++ (ws ++ [EQUALS]) ++ rest).
  f_equal.
  replace (lit "rameworks/" ++ XCFRAMEWORKS ++ k ++ (ws ++ [EQUALS]) ++ rest)
    with ((lit "rameworks/" ++ XCFRAMEWORKS ++ k ++ ws ++ [EQUALS]) ++ rest)
    by (now rewrite <- !app_assoc).
  rewrite scan_copy_run by now apply new_run_no_F.
  rewrite !prev_after_app, prev_after_one. now rewrite <- !app_assoc.
Qed.

(** Where the text has no match for [h] at its head, the scan for the
    other name does not make one. *)
Lemma no_match_after_other (h k : str) (prev : option ascii) (c : ascii) (t : str) :
  ~ In "F"%char h ->
  path_match_at h prev (c :: t) = None ->
  path_match_at h prev (c :: scan_from k (Some c) t) = None.
Proof.
  intros HFh Hnone.
  destruct (path_match_at h prev (c :: scan_from k (Some c) t))
    as [[g2 rest]|] eqn:Eo; [|reflexivity].
  exfalso. apply path_match_at_iff in Eo as (Hprev & ws & -> & Hws & Ho).
  change (FRAMEWORKS ++ h ++ ws ++ [EQUALS] ++ rest)
    with ("F"%char :: lit "rameworks/" ++ h ++ ws ++ [EQUALS] ++ rest) in Ho.
  assert (Ec : c = "F"%char) by (now injection Ho). subst c.
  pose proof (scan_from_scoped k (Some "F"%char) t) as Hsc.
  assert (Ho' : scan_from k (Some "F"%char) t
                = (lit "rameworks/" ++ h ++ ws ++ [EQUALS]) ++ rest).
  { rewrite <- !app_assoc. exact (cons_tail_eq _ _ _ _ Ho). }
  rewrite Ho' in Hsc.
  apply scoped_prefix_back in Hsc as (r & -> & _); [|now apply match_run_no_F].
  assert (Hm : path_match_at h prev
                 ("F"%char :: (lit "rameworks/" ++ h ++ ws ++ [EQUALS]) ++ r)
               = Some (ws ++ [EQUALS], r)).
  { apply path_match_at_iff. split; [assumption|]. exists ws.
    repeat split; [assumption|]. rewrite <- !app_assoc. reflexivity. }
  rewrite Hm in Hnone. discriminate Hnone.
Qed.

Lemma scan_commute :
  forall n t prev,
    length t <= n ->
    scan_from g prev (scan_from f prev t) = scan_from f prev (scan_from g prev t).
Proof.
  assert (Hgf : forall x y, g ++ x <> f ++ y).
  { intros x y E. now apply (Hfg y x). }
  induction n as [|n IH]; intros t prev Hlen.
  { destruct t; [|simpl in Hlen; lia]. now rewrite !scan_from_nil. }
  destruct (path_match_at f prev t) as [[g2 rest]|] eqn:Ef.
  - pose proof Ef as Ef'.
    apply path_match_at_iff in Ef' as (Hprev & ws & -> & Hws & ->).
    rewrite (scan_from_eq f prev (FRAMEWORKS ++ f ++ ws ++ [EQUALS] ++ rest)), Ef.
    rewrite (scan_over_new g f prev ws _ HFf Hxg Hws).
    rewrite (scan_over_other_match g f prev ws rest HFf Hgf Hws).
    rewrite (scan_from_eq f prev
               (FRAMEWORKS ++ f ++ ws ++ [EQUALS] ++ scan_from g (Some EQUALS) rest)).
    assert (Hm : path_match_at f prev
                   (FRAMEWORKS ++ f ++ ws ++ [EQUALS]
                      ++ scan_from g (Some EQUALS) rest)
                 = Some (ws ++ [EQUALS], scan_from g (Some EQUALS) rest)).
    { apply path_match_at_iff. split; [assumption|]. exists ws. auto. }
    rewrite Hm, IH; [reflexivity|].
    rewrite !length_app in Hlen. simpl in Hlen. lia.
  - destruct (path_match_at g prev t) as [[g2 rest]|] eqn:Eg.
    + pose proof Eg as Eg'.
      apply path_match_at_iff in Eg' as (Hprev & ws & -> & Hws & ->).
      rewrite (scan_from_eq g prev (FRAMEWORKS ++ g ++ ws ++ [EQUALS] ++ rest)), Eg.
      rewrite (scan_over_new f g prev ws _ HFg Hxf Hws).
      rewrite (scan_over_other_match f g prev ws rest HFg Hfg Hws).
      rewrite (scan_from_eq g prev
                 (FRAMEWORKS ++ g ++ ws ++ [EQUALS] ++ scan_from f (Some EQUALS) rest)).
      assert (Hm : path_match_at g prev
                     (FRAMEWORKS ++ g ++ ws ++ [EQUALS]
                        ++ scan_from f (Some EQUALS) rest)
                   = Some (ws ++ [EQUALS], scan_from f (Some EQUALS) rest)).
      { apply path_match_at_iff. split; [assumption|]. exists ws. auto. }
      rewrite Hm, IH; [reflexivity|].
      rewrite !length_app in Hlen. simpl in Hlen. lia.
    + destruct t as [|c t]; [now rewrite !scan_from_nil|].
      rewrite (scan_from_eq f prev (c :: t)), Ef.
      rewrite (scan_from_eq g prev (c :: t)), Eg.
      rewrite (scan_from_eq g prev (c :: scan_from f (Some c) t)).
      rewrite (no_match_after_other g f prev c t HFg Eg).
      rewrite (scan_from_eq f prev (c :: scan_from g (Some c) t)).
      rewrite (no_match_after_other f g prev c t HFf Ef).
      f_equal. apply IH. simpl in Hlen. lia.
Qed.

End Commute.

(** X18: the two substitutions commute: the text after step 1 does not
    depend on which of the two file names is rewritten first. *)
Theorem substitutions_commute (text : str) :
  re_sub_path LLAMA_IOS (re_sub_path LLAMA_MACOS text)
  = re_sub_path LLAMA_MACOS (re_sub_path LLAMA_IOS text).
Proof.
  rewrite !re_sub_path_scan.
  apply (scan_commute LLAMA_MACOS LLAMA_IOS macos_no_F ios_no_F
           macos_not_x ios_not_x macos_ios_apart (length text)).
  lia.
Qed.

End PathMore.
